(** * Blender add-ons: tongue rig, sheen material export, DXF constants

    A shallow embedding of three files of the add-on collection:

    - [io_import_dxf/dxfgrabber/const.py]: the DXF version tables;
    - [io_scene_gltf2/.../gltf2_blender_gather_materials_sheen.py]:
      [export_sheen], which reads two material sockets and builds the
      [KHR_materials_sheen] extension record;
    - [rigify/rigs/face/basic_tongue.py]: the tongue [Rig], a sequence of
      host calls that create, parent and constrain bones.

    Python dictionaries are insertion-ordered association lists
    (module [PyDict]); Python methods that mutate the rig object and the
    armature are computations in a state-and-exception monad. The
    coordinates of bones, which the rig only copies, are rationals; the
    influence that the rig computes is a binary64 value, with the rounding
    of each operation written out; the material export compares floats with
    the host's [==] on an abstract type.

    The first part of the file holds the definitions, the second part the
    lemmas and theorems. *)

From Stdlib Require Import QArith Qround Lia Lqa.
From stdpp Require Import base list strings.

Local Open Scope string_scope.
Local Open Scope list_scope.
Local Open Scope nat_scope.

(** ** Python dictionaries *)

Module PyDict.

Section dict.
Context {K V : Type} `{EqDecision K}.

(** [d[k]], as an option: [None] is Python's [KeyError]. *)
Fixpoint get (k : K) (d : list (K * V)) : option V :=
  match d with
  | [] => None
  | (k', v) :: d' => if decide (k' = k) then Some v else get k d'
  end.

(** [d[k] = v]: an existing key keeps its position, a new key goes last. *)
Fixpoint set (k : K) (v : V) (d : list (K * V)) : list (K * V) :=
  match d with
  | [] => [(k, v)]
  | (k', v') :: d' =>
      if decide (k' = k) then (k, v) :: d' else (k', v') :: set k v d'
  end.

(** [d.items()], in insertion order. *)
Definition items (d : list (K * V)) : list (K * V) := d.

(** [d.keys()]. *)
Definition keys (d : list (K * V)) : list K := d.*1.

(** A dictionary display [{k1: v1, k2: v2, ...}]: the pairs are stored
    from left to right. *)
Definition literal (kvs : list (K * V)) : list (K * V) :=
  foldl (λ d kv, set kv.1 kv.2 d) [] kvs.

End dict.

End PyDict.

(** ** DXF constants ([io_import_dxf/dxfgrabber/const.py]) *)

Module DxfConst.

Definition acadrelease : list (string * string) :=
  PyDict.literal
    [ ("AC1009", "R12");
      ("AC1012", "R13");
      ("AC1014", "R14");
      ("AC1015", "R2000");
      ("AC1018", "R2004");
      ("AC1021", "R2007");
      ("AC1024", "R2010") ].

(** [{acad: dxf for dxf, acad in acadrelease.items()}]: the comprehension
    stores one entry per item of [acadrelease], in iteration order. *)
Definition dxfversion : list (string * string) :=
  foldl (λ d item, let '(dxf, acad) := item in PyDict.set acad dxf d)
        [] (PyDict.items acadrelease).

Definition swap (kv : string * string) : string * string := (kv.2, kv.1).

End DxfConst.

(** ** Sheen material extension
    ([io_scene_gltf2/blender/exp/material/extensions/gltf2_blender_gather_materials_sheen.py]) *)

Module Sheen.

(** What [export_sheen] asks of the host and of the exporter modules it
    imports ([gltf2_blender_get], [gltf2_blender_gather_texture_info]),
    none of which is part of the file: the material socket graph reader.
    [float_eqb] is Python's [==] on floats. The colour socket's
    [default_value] is an array of floats, the roughness socket's a float;
    [get_factor_from_socket] returns a list of three floats for
    [kind='RGB'] and a float for [kind='VALUE'], or [None]. *)
Class Host := {
  Material : Type;
  Socket : Type;
  float : Type;
  TextureInfo : Type;
  UVMapInfo : Type;
  UdimInfo : Type;
  ExportSettings : Type;
  float_eqb : float → float → bool;
  float_0 : float;
  float_1 : float;
  get_socket : Material → string → option Socket;
  isinstance_NodeSocket : Socket → bool;
  is_linked : Socket → bool;
  default_value_array : Socket → list float;
  default_value_float : Socket → float;
  get_factor_from_socket_RGB : Socket → option (list float);
  get_factor_from_socket_VALUE : Socket → option float;
  has_image_node_from_socket : Socket → bool;
  gather_texture_info :
    Socket → list Socket → list Socket → ExportSettings →
    TextureInfo * UVMapInfo * UdimInfo
}.

Section export.
Context `{Host}.

(** The values stored in the extension dictionary. *)
Inductive ext_value :=
  | VTuple (xs : list float)
  | VList (xs : list float)
  | VFloat (x : float)
  | VTexture (t : TextureInfo).

(** [Extension(name, extension, required)] of [gltf2_io_extensions]. *)
Record Extension := {
  ext_name : string;
  ext_extension : list (string * ext_value);
  ext_required : bool
}.

(** Python's [==] on two sequences of floats of the same type. *)
Fixpoint seq_eqb (xs ys : list float) : bool :=
  match xs, ys with
  | [], [] => true
  | x :: xs', y :: ys' => float_eqb x y && seq_eqb xs' ys'
  | _, _ => false
  end.

Definition seq_ne (xs ys : list float) : bool := negb (seq_eqb xs ys).

Definition float_ne (x y : float) : bool := negb (float_eqb x y).

Definition black : list float := [float_0; float_0; float_0].

(** Lines 22 and 23: [isinstance(s, bpy.types.NodeSocket) and not s.is_linked]. *)
Definition non_linked (s : Socket) : bool :=
  isinstance_NodeSocket s && negb (is_linked s).

(** Lines 25 to 46, on the pair [(sheen_extension, uvmap_infos)]. *)
Definition export_sheen_color (sheenColor_socket : Socket)
    (export_settings : ExportSettings)
    (st : list (string * ext_value) * list (string * UVMapInfo))
  : list (string * ext_value) * list (string * UVMapInfo) :=
  let '(sheen_extension, uvmap_infos) := st in
  if non_linked sheenColor_socket then
    let color := take 3 (default_value_array sheenColor_socket) in
    if seq_ne color black
    then (PyDict.set "sheenColorFactor" (VTuple color) sheen_extension, uvmap_infos)
    else (sheen_extension, uvmap_infos)
  else
    let fac := get_factor_from_socket_RGB sheenColor_socket in
    let fac := match fac with
               | None => [float_1; float_1; float_1]
               | Some fac => fac
               end in
    let sheen_extension :=
      if seq_ne fac black
      then PyDict.set "sheenColorFactor" (VList fac) sheen_extension
      else sheen_extension in
    if has_image_node_from_socket sheenColor_socket then
      let '(original_sheenColor_texture, uvmap_info, _) :=
        gather_texture_info sheenColor_socket [sheenColor_socket] []
                            export_settings in
      (PyDict.set "sheenColorTexture" (VTexture original_sheenColor_texture)
                  sheen_extension,
       PyDict.set "sheenColorTexture" uvmap_info uvmap_infos)
    else (sheen_extension, uvmap_infos).

(** Lines 48 to 69. *)
Definition export_sheen_roughness (sheenRoughness_socket : Socket)
    (export_settings : ExportSettings)
    (st : list (string * ext_value) * list (string * UVMapInfo))
  : list (string * ext_value) * list (string * UVMapInfo) :=
  let '(sheen_extension, uvmap_infos) := st in
  if non_linked sheenRoughness_socket then
    let fac := default_value_float sheenRoughness_socket in
    if float_ne fac float_0
    then (PyDict.set "sheenRoughnessFactor" (VFloat fac) sheen_extension, uvmap_infos)
    else (sheen_extension, uvmap_infos)
  else
    let fac := get_factor_from_socket_VALUE sheenRoughness_socket in
    let fac := match fac with
               | None => float_1
               | Some fac => fac
               end in
    let sheen_extension :=
      if float_ne fac float_0
      then PyDict.set "sheenRoughnessFactor" (VFloat fac) sheen_extension
      else sheen_extension in
    if has_image_node_from_socket sheenRoughness_socket then
      let '(original_sheenRoughness_texture, uvmap_info, _) :=
        gather_texture_info sheenRoughness_socket [sheenRoughness_socket] []
                            export_settings in
      (PyDict.set "sheenRoughnessTexture"
                  (VTexture original_sheenRoughness_texture) sheen_extension,
       PyDict.set "sheenRoughnessTexture" uvmap_info uvmap_infos)
    else (sheen_extension, uvmap_infos).

(** [export_sheen(blender_material, export_settings)]: the pair of the
    extension (or [None]) and the [uvmap_infos] dictionary. *)
Definition export_sheen (blender_material : Material)
    (export_settings : ExportSettings)
  : option Extension * list (string * UVMapInfo) :=
  let sheen_extension : list (string * ext_value) := [] in
  let sheenColor_socket := get_socket blender_material "sheenColor" in
  let sheenRoughness_socket := get_socket blender_material "sheenRoughness" in
  match sheenColor_socket, sheenRoughness_socket with
  | Some sheenColor_socket, Some sheenRoughness_socket =>
      let uvmap_infos : list (string * UVMapInfo) := [] in
      let '(sheen_extension, uvmap_infos) :=
        export_sheen_roughness sheenRoughness_socket export_settings
          (export_sheen_color sheenColor_socket export_settings
             (sheen_extension, uvmap_infos)) in
      (Some {| ext_name := "KHR_materials_sheen";
               ext_extension := sheen_extension;
               ext_required := false |},
       uvmap_infos)
  | _, _ => (None, [])
  end.

(** The extension dictionary of the result, when there is one. *)
Definition sheen_dict (r : option Extension * list (string * UVMapInfo))
  : option (list (string * ext_value)) :=
  ext_extension <$> r.1.

End export.

(** *** A host for examples: sockets described by what the reader returns *)

Record SampleSocket := {
  s_node_socket : bool;
  s_linked : bool;
  s_default_array : list Q;
  s_default_float : Q;
  s_factor_rgb : option (list Q);
  s_factor_value : option Q;
  s_image : option string
}.

Record SampleMaterial := {
  m_sheenColor : option SampleSocket;
  m_sheenRoughness : option SampleSocket
}.

Definition sample_get_socket (m : SampleMaterial) (name : string)
  : option SampleSocket :=
  if decide (name = "sheenColor") then m_sheenColor m
  else if decide (name = "sheenRoughness") then m_sheenRoughness m
  else None.

Definition sample_gather_texture_info (s : SampleSocket)
    (_ _ : list SampleSocket) (_ : unit) : string * string * unit :=
  (default EmptyString (s_image s), "uv:" +:+ default EmptyString (s_image s), tt).

#[export] Instance sample_host : Host := {|
  Material := SampleMaterial;
  Socket := SampleSocket;
  float := Q;
  TextureInfo := string;
  UVMapInfo := string;
  UdimInfo := unit;
  ExportSettings := unit;
  float_eqb := Qeq_bool;
  float_0 := 0%Q;
  float_1 := 1%Q;
  get_socket := sample_get_socket;
  isinstance_NodeSocket := s_node_socket;
  is_linked := s_linked;
  default_value_array := s_default_array;
  default_value_float := s_default_float;
  get_factor_from_socket_RGB := s_factor_rgb;
  get_factor_from_socket_VALUE := s_factor_value;
  has_image_node_from_socket := λ s, bool_decide (is_Some (s_image s));
  gather_texture_info := sample_gather_texture_info
|}.

(** An unlinked colour socket holding a pale blue, RGBA. *)
Definition unlinked_color : SampleSocket := {|
  s_node_socket := true; s_linked := false;
  s_default_array := [(1#2); (1#2); 1; 1]%Q; s_default_float := 0%Q;
  s_factor_rgb := Some [(1#2); (1#2); 1]%Q; s_factor_value := None;
  s_image := None
|}.

(** An unlinked roughness socket holding 0.3. *)
Definition unlinked_roughness : SampleSocket := {|
  s_node_socket := true; s_linked := false;
  s_default_array := []; s_default_float := (3#10)%Q;
  s_factor_rgb := None; s_factor_value := Some (3#10)%Q;
  s_image := None
|}.

(** A colour socket fed by an image texture node, with no multiply node. *)
Definition image_color : SampleSocket := {|
  s_node_socket := true; s_linked := true;
  s_default_array := [0; 0; 0; 1]%Q; s_default_float := 0%Q;
  s_factor_rgb := None; s_factor_value := None;
  s_image := Some "sheen.png"
|}.

(** An unlinked roughness socket left at its default, 0.0. *)
Definition default_roughness : SampleSocket := {|
  s_node_socket := true; s_linked := false;
  s_default_array := []; s_default_float := 0%Q;
  s_factor_rgb := None; s_factor_value := Some 0%Q;
  s_image := None
|}.

Definition mat_both_unlinked : SampleMaterial :=
  {| m_sheenColor := Some unlinked_color;
     m_sheenRoughness := Some unlinked_roughness |}.

Definition mat_image_color : SampleMaterial :=
  {| m_sheenColor := Some image_color;
     m_sheenRoughness := Some default_roughness |}.

Definition mat_color_only : SampleMaterial :=
  {| m_sheenColor := Some unlinked_color; m_sheenRoughness := None |}.

Definition mat_image_color_only : SampleMaterial :=
  {| m_sheenColor := Some image_color; m_sheenRoughness := None |}.

Definition mat_no_sheen : SampleMaterial :=
  {| m_sheenColor := None; m_sheenRoughness := None |}.

End Sheen.

(** ** The tongue rig ([rigify/rigs/face/basic_tongue.py]) *)

Module Tongue.

(** *** The armature and the rig object *)

Definition Vector : Type := Q * Q * Q.

Record EditBone := {
  eb_head : Vector;
  eb_tail : Vector;
  eb_roll : Q;
  eb_parent : option string;
  eb_use_connect : bool
}.

(** *** Python floats

    A Python float is an IEEE 754 binary64 value: a rational of the form
    [m * 2^e] with [|m| < 2^53] and [-1074 <= e <= 971], an infinity, or
    not-a-number. A finite float is given by its value; the two zeros are
    not told apart. *)

Inductive float :=
  | Finite (q : Q)
  | PosInf
  | NegInf
  | NaN.

(** [2^k] for an integer [k] of either sign. *)
Definition pow2 (k : Z) : Q :=
  if decide (0 ≤ k)%Z then inject_Z (2 ^ k) else 1 # Z.to_pos (2 ^ (- k)).

(** The exponent [e] with [2^e <= x < 2^(e+1)], for [x > 0]. *)
Definition floor_log2 (x : Q) : Z :=
  let e := (Z.log2 (Qnum x) - Z.log2 (Z.pos (Qden x)))%Z in
  if Qle_bool (pow2 e) x then e else (e - 1)%Z.

(** The nearest integer, a tie going to the even one. *)
Definition round_half_even (m : Q) : Z :=
  let f := Qfloor m in
  match (2 * (m - inject_Z f) ?= 1)%Q with
  | Lt => f
  | Gt => (f + 1)%Z
  | Eq => if Z.even f then f else (f + 1)%Z
  end.

(** Rounding of [x > 0] to 53 significant bits, to nearest with ties to
    even. The spacing of the floats around [x] is [2^(e-52)], with [e] the
    exponent of [x], and below [2^-1022] that of the subnormal numbers. *)
Definition round_pos (x : Q) : Q :=
  let e := Z.max (floor_log2 x) (-1022) in
  let ulp := pow2 (e - 52) in
  (inject_Z (round_half_even (x / ulp)) * ulp)%Q.

(** The float that an operation with exact result [x] returns: [x] rounded
    to nearest, and an infinity when the rounded value reaches [2^1024]. *)
Definition round64 (x : Q) : float :=
  match (x ?= 0)%Q with
  | Eq => Finite 0
  | Gt => let y := round_pos x in
          if Qle_bool (pow2 1024) y then PosInf else Finite y
  | Lt => let y := round_pos (- x) in
          if Qle_bool (pow2 1024) y then NegInf else Finite (- y)
  end.

(** [a - b] on floats. *)
Definition float_sub (a b : float) : float :=
  match a, b with
  | Finite x, Finite y => round64 (x - y)
  | NaN, _ | _, NaN => NaN
  | PosInf, PosInf | NegInf, NegInf => NaN
  | PosInf, _ | _, NegInf => PosInf
  | NegInf, _ | _, PosInf => NegInf
  end.

(** [a == b] on floats. *)
Definition float_eq (a b : float) : Prop :=
  match a, b with
  | Finite x, Finite y => (x == y)%Q
  | PosInf, PosInf | NegInf, NegInf => True
  | _, _ => False
  end.

(** [a < b] and [a <= b] on floats; not-a-number compares false. *)
Definition float_lt (a b : float) : Prop :=
  match a, b with
  | NaN, _ | _, NaN => False
  | Finite x, Finite y => (x < y)%Q
  | _, NegInf | PosInf, _ => False
  | NegInf, _ | _, PosInf => True
  end.

Definition float_le (a b : float) : Prop :=
  match a, b with
  | NaN, _ | _, NaN => False
  | Finite x, Finite y => (x <= y)%Q
  | NegInf, _ | _, PosInf => True
  | _, NegInf | PosInf, _ => False
  end.

Record Constraint := {
  con_owner : string;
  con_type : string;
  con_subtarget : string;
  con_influence : float
}.

(** [self.obj]: the bones in creation order, addressed by name, and the
    constraints in creation order. *)
Record Armature := {
  edit_bones : list (string * EditBone);
  constraints : list Constraint
}.

(** [self]. The attributes [master], [tweak] and [follow] of [self.bones]
    are options: [None] stands for an attribute that no method has assigned
    yet, and reading it raises. [rig_parent_bone] is a bone name or
    Python's [None]. *)
Record Rig := {
  params_bbones : Z;
  base_bone : string;
  rig_parent_bone : option string;
  bones_org : list string;
  bones_ctrl_master : option string;
  bones_ctrl_tweak : option (list string);
  bones_mch_follow : option (list string);
  bbone_segments : Z
}.

Inductive Exception :=
  | ConfigurationError (rig : string) (min_chain_length : nat)
  | MetarigError (bone : string)
  | KeyError (key : string)
  | AttributeError (attr : string)
  | IndexError
  | ZeroDivisionError
  | OverflowError.

(** The rig object, the armature it edits, and the host build report. *)
Record State := {
  self : Rig;
  obj : Armature;
  report : list Exception
}.

(** *** The state-and-exception monad

    A raised exception leaves the mutations made so far in place, as in
    Python. *)

Inductive outcome (A : Type) :=
  | Return (a : A)
  | Raise (e : Exception).
Arguments Return {A} a.
Arguments Raise {A} e.

Definition M (A : Type) : Type := State → outcome A * State.

#[global] Instance M_ret : MRet M := λ A a s, (Return a, s).

#[global] Instance M_bind : MBind M := λ A B f m s,
  match m s with
  | (Return a, s') => f a s'
  | (Raise e, s') => (Raise e, s')
  end.

Definition raise {A} (e : Exception) : M A := λ s, (Raise e, s).

Definition gets {A} (f : State → A) : M A := λ s, (Return (f s), s).

Definition modify (f : State → State) : M unit := λ s, (Return tt, f s).

(** Reading an attribute that may not have been assigned yet. *)
Definition getattr {A} (name : string) (field : Rig → option A) : M A :=
  v ← gets (field ∘ self);
  match v with
  | Some a => mret a
  | None => raise (AttributeError name)
  end.

(** [for x in l: body(x)]. *)
Fixpoint for_each {A} (l : list A) (body : A → M unit) : M unit :=
  match l with
  | [] => mret tt
  | x :: l' => body x ;; for_each l' body
  end.

(** [enumerate(l, start)] and [enumerate(l)]. *)
Fixpoint enumerate_from {A} (start : nat) (l : list A) : list (nat * A) :=
  match l with
  | [] => []
  | x :: l' => (start, x) :: enumerate_from (S start) l'
  end.

Definition enumerate {A} (l : list A) : list (nat * A) := enumerate_from 0 l.

(** Modelled from the spec: [map_list(func, count(start), l)], with
    [map_list] of [utils.misc], which is not part of the file. One call of
    [func] for each element of the list, in the order of the list, with the
    counter as first argument; the results are collected in the same
    order. *)
Fixpoint map_list_count {A B} (func : nat → A → M B) (start : nat)
    (l : list A) : M (list B) :=
  match l with
  | [] => mret []
  | x :: l' =>
      y ← func start x;
      ys ← map_list_count func (S start) l';
      mret (y :: ys)
  end.

(** [a / b] on Python integers: the quotient rounded to a float. Division
    by zero is an error, and so is a quotient too large for a float. *)
Definition truediv (a b : Z) : M float :=
  if decide (b = 0%Z) then raise ZeroDivisionError
  else match round64 (inject_Z a / inject_Z b) with
       | Finite q => mret (Finite q)
       | _ => raise OverflowError
       end.

(** The value of the expression [1-(1+i)/num_orgs] when the division
    succeeds: the integer [1] becomes the float [1.0], from which the
    quotient is subtracted. *)
Definition follow_influence (i num_orgs : nat) : float :=
  float_sub (Finite 1)
    (round64 (inject_Z (1 + Z.of_nat i) / inject_Z (Z.of_nat num_orgs))).

(** *** Observations on the state *)

(** The names of the bones of the armature, in creation order. *)
Definition bone_names (s : State) : list string :=
  PyDict.keys (edit_bones (obj s)).

Definition has_bone (s : State) (name : string) : Prop :=
  name ∈ bone_names s.

(** The parent of a bone of the armature: [None] when there is no such
    bone, [Some None] for a bone without parent. *)
Definition bone_parent (s : State) (name : string) : option (option string) :=
  eb_parent <$> PyDict.get name (edit_bones (obj s)).

(** *** State updates *)

Definition set_edit_bones (eb : list (string * EditBone)) (s : State) : State :=
  {| self := self s;
     obj := {| edit_bones := eb; constraints := constraints (obj s) |};
     report := report s |}.

Definition add_constraint (c : Constraint) (s : State) : State :=
  {| self := self s;
     obj := {| edit_bones := edit_bones (obj s);
               constraints := constraints (obj s) ++ [c] |};
     report := report s |}.

Definition add_report (e : Exception) (s : State) : State :=
  {| self := self s; obj := obj s; report := report s ++ [e] |}.

Definition set_self (r : Rig) (s : State) : State :=
  {| self := r; obj := obj s; report := report s |}.

Definition with_bbone_segments (n : Z) (r : Rig) : Rig :=
  {| params_bbones := params_bbones r; base_bone := base_bone r;
     rig_parent_bone := rig_parent_bone r; bones_org := bones_org r;
     bones_ctrl_master := bones_ctrl_master r;
     bones_ctrl_tweak := bones_ctrl_tweak r;
     bones_mch_follow := bones_mch_follow r;
     bbone_segments := n |}.

Definition with_ctrl_master (name : string) (r : Rig) : Rig :=
  {| params_bbones := params_bbones r; base_bone := base_bone r;
     rig_parent_bone := rig_parent_bone r; bones_org := bones_org r;
     bones_ctrl_master := Some name;
     bones_ctrl_tweak := bones_ctrl_tweak r;
     bones_mch_follow := bones_mch_follow r;
     bbone_segments := bbone_segments r |}.

Definition with_mch_follow (names : list string) (r : Rig) : Rig :=
  {| params_bbones := params_bbones r; base_bone := base_bone r;
     rig_parent_bone := rig_parent_bone r; bones_org := bones_org r;
     bones_ctrl_master := bones_ctrl_master r;
     bones_ctrl_tweak := bones_ctrl_tweak r;
     bones_mch_follow := Some names;
     bbone_segments := bbone_segments r |}.

(** *** Rig parameters *)

(** A property declaration stored on the [params] object:
    [bpy.props.IntProperty(name, default, min, description)], or a
    declaration of another kind made by the host helpers. *)
Inductive Property :=
  | IntProperty (name : string) (default : Z) (min : Z) (description : string)
  | HostProperty (kind : string).

Definition property_default (p : Property) : option Z :=
  match p with
  | IntProperty _ default _ _ => Some default
  | HostProperty _ => None
  end.

Definition property_min (p : Property) : option Z :=
  match p with
  | IntProperty _ _ min _ => Some min
  | HostProperty _ => None
  end.

(** The phases of the build, in execution order. *)
Inductive Phase :=
  | generate_bones
  | parent_bones
  | configure_bones
  | rig_bones
  | generate_widgets.

(** What the rig asks of code that is not part of the file and that the
    theorems leave open: naming ([utils.naming.make_derived_name], and the
    host's choice of the name of a new bone given the names in use), pose
    bone properties and layers, the widget, the layer parameters, and the
    phase handlers that the rig inherits from the chain templates. *)
Class Env := {
  make_derived_name : string → string → string;
  new_bone_name : list string → string → string;
  copy_bone_properties : string → string → M unit;
  skin_primary_assign : list string → M unit;
  create_jaw_widget : string → M unit;
  skin_primary_add_parameters :
    list (string * Property) → list (string * Property);
  inherited : Phase → M unit
}.

Section rig.
Context `{Env}.

(** *** Bone utilities of the host and of [utils.bones] *)

(** Modelled from the spec: [obj.data.edit_bones[name]] of the host
    skeleton API, bones being addressed by name within a host-owned
    collection. *)
Definition edit_bone (name : string) : M EditBone :=
  eb ← gets (edit_bones ∘ obj);
  match PyDict.get name eb with
  | Some b => mret b
  | None => raise (KeyError name)
  end.

(** The name asked of the host for a copy: the source's when none is given. *)
Definition requested_name (bone_name assign_name : string) : string :=
  if decide (assign_name = EmptyString) then bone_name else assign_name.

(** Modelled from the spec: the host operation that creates a bone,
    [self.copy_bone(bone_name, new_name, parent=...)]. The new bone is
    added after the existing ones under the name the host chooses for it,
    with the position and roll of the source and, with [parent=True], its
    parent; the name is returned. A missing source is an error. *)
Definition copy_bone (bone_name assign_name : string) (parent : bool)
  : M string :=
  eb ← gets (edit_bones ∘ obj);
  match PyDict.get bone_name eb with
  | None => raise (MetarigError bone_name)
  | Some bone_1 =>
      let assign_name := requested_name bone_name assign_name in
      let bone_name_2 := new_bone_name (PyDict.keys eb) assign_name in
      let bone_2 :=
        {| eb_head := eb_head bone_1;
           eb_tail := eb_tail bone_1;
           eb_roll := eb_roll bone_1;
           eb_parent := if parent then eb_parent bone_1 else None;
           eb_use_connect := if parent then eb_use_connect bone_1 else false |} in
      modify (set_edit_bones (eb ++ [(bone_name_2, bone_2)])) ;;
      mret bone_name_2
  end.

(** Modelled from the spec: [flip_bone(obj, bone_name)], which mirrors the
    orientation of a bone by exchanging its head and tail. *)
Definition flip_bone (bone_name : string) : M unit :=
  eb ← gets (edit_bones ∘ obj);
  match PyDict.get bone_name eb with
  | None => raise (MetarigError bone_name)
  | Some bone =>
      let flipped :=
        {| eb_head := eb_tail bone;
           eb_tail := eb_head bone;
           eb_roll := eb_roll bone;
           eb_parent := eb_parent bone;
           eb_use_connect := eb_use_connect bone |} in
      modify (set_edit_bones (PyDict.set bone_name flipped eb))
  end.

(** Modelled from the spec: [copy_bone_position(obj, bone_name,
    target_bone_name)], which sets head, tail and roll of the target from
    the first bone. *)
Definition copy_bone_position (bone_name target_bone_name : string) : M unit :=
  bone_1 ← edit_bone bone_name;
  bone_2 ← edit_bone target_bone_name;
  eb ← gets (edit_bones ∘ obj);
  let moved :=
    {| eb_head := eb_head bone_1;
       eb_tail := eb_tail bone_1;
       eb_roll := eb_roll bone_1;
       eb_parent := eb_parent bone_2;
       eb_use_connect := eb_use_connect bone_2 |} in
  modify (set_edit_bones (PyDict.set target_bone_name moved eb)).

(** Modelled from the spec: the host operation that sets the parent,
    [self.set_bone_parent(bone_name, parent_name)]; the parent is a bone of
    the armature, or [None] for no parent. The rig calls it without
    [use_connect], and the bone is then not connected to its parent. *)
Definition set_bone_parent (bone_name : string) (parent_name : option string)
  : M unit :=
  bone ← edit_bone bone_name;
  match parent_name with
  | Some p => edit_bone p ;; mret tt
  | None => mret tt
  end ;;
  eb ← gets (edit_bones ∘ obj);
  let reparented :=
    {| eb_head := eb_head bone;
       eb_tail := eb_tail bone;
       eb_roll := eb_roll bone;
       eb_parent := parent_name;
       eb_use_connect := false |} in
  modify (set_edit_bones (PyDict.set bone_name reparented eb)).

(** Modelled from the spec: the host operation that adds a constraint of a
    named type with an influence parameter to a bone,
    [self.make_constraint(bone, type, target, influence=...)]. *)
Definition make_constraint (bone type_ target : string) (influence : float)
  : M unit :=
  edit_bone bone ;;
  modify (add_constraint
            {| con_owner := bone; con_type := type_;
               con_subtarget := target; con_influence := influence |}).

(** Modelled from the spec: [self.raise_error], which reports a
    descriptive error to the host build report and aborts the build of
    this rig. *)
Definition raise_error {A} (e : Exception) : M A :=
  modify (add_report e) ;; raise e.

(** *** class Rig(TweakChainRig) *)

Definition min_chain_length : nat := 3.

(** Modelled from the spec: [initialize] of the chain template that the
    rig extends, where the precondition on the chain length is checked: a
    chain shorter than [min_chain_length] is a configuration error. *)
Definition super_initialize : M unit :=
  org ← gets (bones_org ∘ self);
  if decide (length org < min_chain_length)
  then base ← gets (base_bone ∘ self);
       raise_error (ConfigurationError base min_chain_length)
  else mret tt.

Definition initialize : M unit :=
  super_initialize ;;
  bbones ← gets (params_bbones ∘ self);
  modify (λ s, set_self (with_bbone_segments bbones (self s)) s).

(** [self.bones.org[0]]. *)
Definition org_0 : M string :=
  org ← gets (bones_org ∘ self);
  match org with
  | org0 :: _ => mret org0
  | [] => raise IndexError
  end.

Definition make_control_chain : M unit :=
  org ← org_0;
  name ← copy_bone org (make_derived_name org "ctrl") true;
  flip_bone name ;;
  modify (λ s, set_self (with_ctrl_master name (self s)) s).

Definition parent_control_chain : M unit := mret tt.

Definition configure_control_chain : M unit :=
  master ← getattr "master" bones_ctrl_master;
  org ← org_0;
  copy_bone_properties org master ;;
  skin_primary_assign [master].

Definition make_control_widgets : M unit :=
  master ← getattr "master" bones_ctrl_master;
  create_jaw_widget master.

Definition make_mch_follow_bone (_i : nat) (org : string) : M string :=
  name ← copy_bone org (make_derived_name org "mch") false;
  base ← gets (base_bone ∘ self);
  copy_bone_position base name ;;
  flip_bone name ;;
  mret name.

Definition make_follow_chain : M unit :=
  org ← gets (bones_org ∘ self);
  follow ← map_list_count make_mch_follow_bone 1 (drop 1 org);
  modify (λ s, set_self (with_mch_follow follow (self s)) s).

Definition parent_follow_chain : M unit :=
  follow ← getattr "follow" bones_mch_follow;
  for_each follow (λ mch,
    parent ← gets (rig_parent_bone ∘ self);
    set_bone_parent mch parent).

Definition rig_follow_chain : M unit :=
  master ← getattr "master" bones_ctrl_master;
  org ← gets (bones_org ∘ self);
  let num_orgs := length org in
  follow ← getattr "follow" bones_mch_follow;
  for_each (enumerate follow) (λ '(i, mch),
    q ← truediv (1 + Z.of_nat i) (Z.of_nat num_orgs);
    make_constraint mch "COPY_TRANSFORMS" master (float_sub (Finite 1) q)).

Definition parent_tweak_chain : M unit :=
  master ← getattr "master" bones_ctrl_master;
  follow ← getattr "follow" bones_mch_follow;
  root ← gets (rig_parent_bone ∘ self);
  let parents := [Some master] ++ (Some <$> follow) ++ [root] in
  tweak ← getattr "tweak" bones_ctrl_tweak;
  for_each (zip tweak parents) (λ '(tweak, main),
    set_bone_parent tweak main).

Definition bbones_property : Property :=
  IntProperty "B-Bone Segments" 10 1 "Number of B-Bone segments".

Definition add_parameters (params : list (string * Property))
  : list (string * Property) :=
  skin_primary_add_parameters (PyDict.set "bbones" bbones_property params).

(** *** The build *)

(** Modelled from the spec: the registry of per-phase handler functions of
    the rig type. The stage decorators and the generator that calls the
    handlers are not part of the file. In the model a method that the class
    overrides runs in the place it has in the chain templates: the methods
    of the control chain before the handlers that the rig inherits
    unchanged ([inherited]), and [parent_tweak_chain] after them; the
    methods that the class adds for the follow chain run last. No theorem
    about a single method depends on this order. *)
Definition handlers (p : Phase) : M unit :=
  match p with
  | generate_bones =>
      make_control_chain ;; inherited generate_bones ;; make_follow_chain
  | parent_bones =>
      parent_control_chain ;; inherited parent_bones ;;
      parent_tweak_chain ;; parent_follow_chain
  | configure_bones => configure_control_chain ;; inherited configure_bones
  | rig_bones => inherited rig_bones ;; rig_follow_chain
  | generate_widgets => make_control_widgets ;; inherited generate_widgets
  end.

Definition phases : list Phase :=
  [generate_bones; parent_bones; configure_bones; rig_bones; generate_widgets].

(** Modelled from the spec: the build of one rig instance by the
    generator, an ordered pipeline of named phases (generate, parent,
    configure, rig, widgets) run once per rig instance after its
    initialisation; an error aborts the build of the rig. *)
Definition build_rig : M unit :=
  initialize ;; for_each phases handlers.

End rig.

End Tongue.

(** *** A sample metarig: the three-bone tongue of [create_sample] *)

Module TongueSample.
Import Tongue.

Definition strip_org (name : string) : string :=
  if String.prefix "ORG-" name
  then String.substring 4 (String.length name - 4) name
  else name.

(** A naming scheme in the manner of [utils.naming]: mechanism bones get
    the prefix [MCH-], controls lose the prefix of the original. *)
Definition sample_make_derived_name (name subtype : string) : string :=
  (if decide (subtype = "mch") then "MCH-" else EmptyString) +:+ strip_org name.

(** A host that keeps a free name and adds a suffix to one in use. *)
Definition sample_new_bone_name (taken : list string) (name : string) : string :=
  if bool_decide (name ∈ taken) then name +:+ ".001" else name.

Definition with_ctrl_tweak (names : list string) (r : Rig) : Rig :=
  {| params_bbones := params_bbones r; base_bone := base_bone r;
     rig_parent_bone := rig_parent_bone r; bones_org := bones_org r;
     bones_ctrl_master := bones_ctrl_master r;
     bones_ctrl_tweak := Some names;
     bones_mch_follow := bones_mch_follow r;
     bbone_segments := bbone_segments r |}.

(** The environment without inherited handlers. *)
Definition bare_env : Env := {|
  make_derived_name := sample_make_derived_name;
  new_bone_name := sample_new_bone_name;
  copy_bone_properties := λ _ _, mret tt;
  skin_primary_assign := λ _, mret tt;
  create_jaw_widget := λ _, mret tt;
  skin_primary_add_parameters :=
    PyDict.set "primary_layers" (HostProperty "layers");
  inherited := λ _, mret tt
|}.

(** The tweak chain of the chain template: one tweak bone per original
    bone and one for the end of the chain. *)
Definition sample_make_tweak_chain : M unit :=
  org ← gets (bones_org ∘ self);
  tweak ← map_list_count
            (λ i org, @copy_bone bare_env org
                        ("tweak_" +:+ strip_org org) false)
            0 (org ++ drop (length org - 1) org);
  modify (λ s, set_self (with_ctrl_tweak tweak (self s)) s).

#[export] Instance sample_env : Env := {|
  make_derived_name := sample_make_derived_name;
  new_bone_name := sample_new_bone_name;
  copy_bone_properties := λ _ _, mret tt;
  skin_primary_assign := λ _, mret tt;
  create_jaw_widget := λ _, mret tt;
  skin_primary_add_parameters :=
    PyDict.set "primary_layers" (HostProperty "layers");
  inherited := λ p,
    match p with
    | generate_bones => sample_make_tweak_chain
    | _ => mret tt
    end
|}.

Definition bone (head tail : Vector) (parent : option string)
    (use_connect : bool) : EditBone :=
  {| eb_head := head; eb_tail := tail; eb_roll := 0%Q;
     eb_parent := parent; eb_use_connect := use_connect |}.

Definition sample_armature : Armature := {|
  edit_bones :=
    [ ("root", bone (0, 0, 0)%Q (0, 1, 0)%Q None false);
      ("ORG-tongue",
       bone (0, 0, 0)%Q (0, 161 # 10000, 74 # 10000)%Q (Some "root") false);
      ("ORG-tongue.001",
       bone (0, 161 # 10000, 74 # 10000)%Q (0, 375 # 10000, 91 # 10000)%Q
            (Some "ORG-tongue") true);
      ("ORG-tongue.002",
       bone (0, 375 # 10000, 91 # 10000)%Q (0, 605 # 10000, -29 # 10000)%Q
            (Some "ORG-tongue.001") true) ];
  constraints := []
|}.

Definition sample_rig : Rig := {|
  params_bbones := 10;
  base_bone := "ORG-tongue";
  rig_parent_bone := Some "root";
  bones_org := ["ORG-tongue"; "ORG-tongue.001"; "ORG-tongue.002"];
  bones_ctrl_master := None;
  bones_ctrl_tweak := None;
  bones_mch_follow := None;
  bbone_segments := 8
|}.

Definition sample_state : State :=
  {| self := sample_rig; obj := sample_armature; report := [] |}.

(** The same metarig with the last bone left out of the chain. *)
Definition short_rig : Rig := {|
  params_bbones := 10;
  base_bone := "ORG-tongue";
  rig_parent_bone := Some "root";
  bones_org := ["ORG-tongue"; "ORG-tongue.001"];
  bones_ctrl_master := None;
  bones_ctrl_tweak := None;
  bones_mch_follow := None;
  bbone_segments := 8
|}.

Definition short_state : State :=
  {| self := short_rig; obj := sample_armature; report := [] |}.

(** The state a computation ends in. *)
Definition exec {A} (m : M A) (s : State) : State := (m s).2.

(** The sample after the bones of the rig have been generated. *)
Definition generated_state : State := exec (handlers generate_bones) sample_state.

End TongueSample.

(** ** DXF constants, continued: colours, flags and flag tables
    ([io_import_dxf/dxfgrabber/const.py]) *)

Module DxfFlags.

Local Open Scope Z_scope.

Definition ENV_CYTHON : string := "DXFGRABBER_CYTHON".

Definition BYBLOCK : Z := 0.
Definition BYLAYER : Z := 256.

Definition XTYPE_NONE : Z := 0.
Definition XTYPE_2D : Z := 1.
Definition XTYPE_3D : Z := 2.
Definition XTYPE_2D_3D : Z := 3.

(** Entity: Polyline, Polymesh; 70 flags. *)
Definition POLYLINE_CLOSED : Z := 1.
Definition POLYLINE_MESH_CLOSED_M_DIRECTION : Z := POLYLINE_CLOSED.
Definition POLYLINE_CURVE_FIT_VERTICES_ADDED : Z := 2.
Definition POLYLINE_SPLINE_FIT_VERTICES_ADDED : Z := 4.
Definition POLYLINE_3D_POLYLINE : Z := 8.
Definition POLYLINE_3D_POLYMESH : Z := 16.
Definition POLYLINE_MESH_CLOSED_N_DIRECTION : Z := 32.
Definition POLYLINE_POLYFACE : Z := 64.
Definition POLYLINE_GENERATE_LINETYPE_PATTERN : Z := 128.

(** Entity: Polymesh; 75 surface smooth type. *)
Definition POLYMESH_NO_SMOOTH : Z := 0.
Definition POLYMESH_QUADRIC_BSPLINE : Z := 5.
Definition POLYMESH_CUBIC_BSPLINE : Z := 6.
Definition POLYMESH_BEZIER_SURFACE : Z := 8.

(** Entity: Vertex; 70 flags. Bit 4 is unused. *)
Definition VERTEXNAMES : list string := ["vtx0"; "vtx1"; "vtx2"; "vtx3"].
Definition VTX_EXTRA_VERTEX_CREATED : Z := 1.
Definition VTX_CURVE_FIT_TANGENT : Z := 2.
Definition VTX_SPLINE_VERTEX_CREATED : Z := 8.
Definition VTX_SPLINE_FRAME_CONTROL_POINT : Z := 16.
Definition VTX_3D_POLYLINE_VERTEX : Z := 32.
Definition VTX_3D_POLYGON_MESH_VERTEX : Z := 64.
Definition VTX_3D_POLYFACE_MESH_VERTEX : Z := 128.

Definition VERTEX_FLAGS : list (string * Z) :=
  PyDict.literal
    [ ("polyline2d", 0);
      ("polyline3d", VTX_3D_POLYLINE_VERTEX);
      ("polymesh", VTX_3D_POLYGON_MESH_VERTEX);
      ("polyface",
       Z.lor VTX_3D_POLYGON_MESH_VERTEX VTX_3D_POLYFACE_MESH_VERTEX) ].

Definition POLYLINE_FLAGS : list (string * Z) :=
  PyDict.literal
    [ ("polyline2d", 0);
      ("polyline3d", POLYLINE_3D_POLYLINE);
      ("polymesh", POLYLINE_3D_POLYMESH);
      ("polyface", POLYLINE_POLYFACE) ].

(** Entity: BLOCK; 70 flags (bit coded values, may be combined). *)
Definition BLK_ANONYMOUS : Z := 1.
Definition BLK_NON_CONSTANT_ATTRIBUTES : Z := 2.
Definition BLK_XREF : Z := 4.
Definition BLK_XREF_OVERLAY : Z := 8.
Definition BLK_EXTERNAL : Z := 16.
Definition BLK_RESOLVED : Z := 32.
Definition BLK_REFERENCED : Z := 64.

Definition LWPOLYLINE_CLOSED : Z := 1.
Definition LWPOLYLINE_PLINEGEN : Z := 128.

Definition SPLINE_CLOSED : Z := 1.
Definition SPLINE_PERIODIC : Z := 2.
Definition SPLINE_RATIONAL : Z := 4.
Definition SPLINE_PLANAR : Z := 8.
Definition SPLINE_LINEAR : Z := 16.

Definition MTEXT_TOP_LEFT : Z := 1.
Definition MTEXT_TOP_CENTER : Z := 2.
Definition MTEXT_TOP_RIGHT : Z := 3.
Definition MTEXT_MIDDLE_LEFT : Z := 4.
Definition MTEXT_MIDDLE_CENTER : Z := 5.
Definition MTEXT_MIDDLE_RIGHT : Z := 6.
Definition MTEXT_BOTTOM_LEFT : Z := 7.
Definition MTEXT_BOTTOM_CENTER : Z := 8.
Definition MTEXT_BOTTOM_RIGHT : Z := 9.

Definition MTEXT_LEFT_TO_RIGHT : Z := 1.
Definition MTEXT_TOP_TO_BOTTOM : Z := 2.
Definition MTEXT_BY_STYLE : Z := 5.

(** The flags of each bit-coded group, in the order of the file. The alias
    [POLYLINE_MESH_CLOSED_M_DIRECTION] is the flag [POLYLINE_CLOSED]. *)
Definition polyline_flags : list Z :=
  [ POLYLINE_CLOSED; POLYLINE_CURVE_FIT_VERTICES_ADDED;
    POLYLINE_SPLINE_FIT_VERTICES_ADDED; POLYLINE_3D_POLYLINE;
    POLYLINE_3D_POLYMESH; POLYLINE_MESH_CLOSED_N_DIRECTION;
    POLYLINE_POLYFACE; POLYLINE_GENERATE_LINETYPE_PATTERN ].

Definition vertex_flags : list Z :=
  [ VTX_EXTRA_VERTEX_CREATED; VTX_CURVE_FIT_TANGENT;
    VTX_SPLINE_VERTEX_CREATED; VTX_SPLINE_FRAME_CONTROL_POINT;
    VTX_3D_POLYLINE_VERTEX; VTX_3D_POLYGON_MESH_VERTEX;
    VTX_3D_POLYFACE_MESH_VERTEX ].

Definition block_flags : list Z :=
  [ BLK_ANONYMOUS; BLK_NON_CONSTANT_ATTRIBUTES; BLK_XREF; BLK_XREF_OVERLAY;
    BLK_EXTERNAL; BLK_RESOLVED; BLK_REFERENCED ].

Definition lwpolyline_flags : list Z :=
  [ LWPOLYLINE_CLOSED; LWPOLYLINE_PLINEGEN ].

Definition spline_flags : list Z :=
  [ SPLINE_CLOSED; SPLINE_PERIODIC; SPLINE_RATIONAL; SPLINE_PLANAR;
    SPLINE_LINEAR ].

Definition flag_groups : list (list Z) :=
  [ polyline_flags; vertex_flags; block_flags; lwpolyline_flags;
    spline_flags ].

(** [f1 | f2 | ...], the way the file combines flags in [VERTEX_FLAGS]. *)
Definition combine (flags : list Z) : Z := foldr Z.lor 0 flags.

(** [bool(value & flag)], the test of a flag in a flag word. *)
Definition has_flag (value flag : Z) : bool := negb (Z.land value flag =? 0).

End DxfFlags.

(** *** More sample materials *)

Module SheenMore.
Import Sheen.

(** An unlinked colour socket left at its default, black. *)
Definition default_color : SampleSocket := {|
  s_node_socket := true; s_linked := false;
  s_default_array := [0; 0; 0; 1]%Q; s_default_float := 0%Q;
  s_factor_rgb := Some [0; 0; 0]%Q; s_factor_value := None;
  s_image := None
|}.

Definition mat_defaults : SampleMaterial :=
  {| m_sheenColor := Some default_color;
     m_sheenRoughness := Some default_roughness |}.

Definition mat_image_color_rough : SampleMaterial :=
  {| m_sheenColor := Some image_color;
     m_sheenRoughness := Some unlinked_roughness |}.

End SheenMore.

(** *** The bones and names the rig produces *)

Module TongueMore.
Import Tongue.

(** A bone with head and tail exchanged, as [flip_bone] leaves it. *)
Definition flipped (b : EditBone) : EditBone :=
  {| eb_head := eb_tail b;
     eb_tail := eb_head b;
     eb_roll := eb_roll b;
     eb_parent := eb_parent b;
     eb_use_connect := eb_use_connect b |}.

(** A bone with another parent, as [set_bone_parent] leaves it. *)
Definition with_parent (p : option string) (b : EditBone) : EditBone :=
  {| eb_head := eb_head b;
     eb_tail := eb_tail b;
     eb_roll := eb_roll b;
     eb_parent := p;
     eb_use_connect := false |}.

(** The bone [make_mch_follow_bone] leaves: a copy without parent, moved
    onto the base bone and flipped. *)
Definition follow_bone (base : EditBone) : EditBone :=
  {| eb_head := eb_tail base;
     eb_tail := eb_head base;
     eb_roll := eb_roll base;
     eb_parent := None;
     eb_use_connect := false |}.

Section names.
Context `{Env}.

(** The name the host gives the master control made from [org]. *)
Definition master_name (taken : list string) (org : string) : string :=
  new_bone_name taken (requested_name org (make_derived_name org "ctrl")).

(** The names the host gives the follow bones made from [orgs], one after
    the other, each chosen with the earlier ones in use. *)
Fixpoint follow_names (taken : list string) (orgs : list string)
  : list string :=
  match orgs with
  | [] => []
  | org :: orgs' =>
      let name :=
        new_bone_name taken (requested_name org (make_derived_name org "mch")) in
      name :: follow_names (taken ++ [name]) orgs'
  end.

End names.

End TongueMore.

(** *** More states of the sample metarig *)

Module TongueMoreSample.
Import Tongue TongueSample.

(** The sample once the master control has been made. *)
Definition controlled_state : State := exec make_control_chain sample_state.

(** The sample with its master control and another chain of original
    bones. *)
Definition with_org (orgs : list string) (r : Rig) : Rig :=
  {| params_bbones := params_bbones r; base_bone := base_bone r;
     rig_parent_bone := rig_parent_bone r; bones_org := orgs;
     bones_ctrl_master := bones_ctrl_master r;
     bones_ctrl_tweak := bones_ctrl_tweak r;
     bones_mch_follow := bones_mch_follow r;
     bbone_segments := bbone_segments r |}.

Definition chain_state (orgs : list string) : State :=
  set_self (with_org orgs (self controlled_state)) controlled_state.

(** The generated sample with a fifth bone at the end of the tweak chain. *)
Definition long_tweak_state : State :=
  set_self
    (with_ctrl_tweak
       [ "tweak_tongue"; "tweak_tongue.001"; "tweak_tongue.002";
         "tweak_tongue.002.001"; "ORG-tongue.002" ]
       (self generated_state))
    generated_state.

End TongueMoreSample.

(** * Lemmas and theorems *)

(** ** Dictionaries *)

Module PyDictFacts.
Import PyDict.

Section facts.
Context {K V : Type} `{EqDecision K}.
Implicit Types (k : K) (v : V) (d : list (K * V)).

Lemma get_set_eq k v d : get k (set k v d) = Some v.
Proof.
  induction d as [|[k' v'] d IH]; simpl.
  - by rewrite decide_True.
  - destruct (decide (k' = k)) as [->|Hne]; simpl.
    + by rewrite decide_True.
    + by rewrite decide_False.
Qed.

Lemma get_set_ne k k' v d : k ≠ k' → get k' (set k v d) = get k' d.
Proof.
  intros Hne. induction d as [|[k0 v0] d IH]; simpl.
  - by rewrite decide_False.
  - destruct (decide (k0 = k)) as [->|Hne0]; simpl.
    + by rewrite !decide_False.
    + by rewrite IH.
Qed.

Lemma get_Some_elem_of k v d : get k d = Some v → (k, v) ∈ d.
Proof.
  induction d as [|[k' v'] d IH]; simpl; [done|].
  destruct (decide (k' = k)) as [->|Hne].
  - intros [= ->]. left.
  - intros Hg. right. by apply IH.
Qed.

Lemma elem_of_get_Some k v d : NoDup (keys d) → (k, v) ∈ d → get k d = Some v.
Proof.
  unfold keys. induction d as [|[k' v'] d IH]; simpl.
  - intros _ Hin. by apply elem_of_nil in Hin.
  - intros [Hk Hnd]%NoDup_cons [Heq|Hin]%elem_of_cons.
    + injection Heq as -> ->. by rewrite decide_True.
    + rewrite decide_False; [by apply IH|].
      intros ->. apply Hk. apply list_elem_of_fmap. by exists (k, v).
Qed.

Lemma get_is_Some k d : is_Some (get k d) ↔ k ∈ keys d.
Proof.
  unfold keys. induction d as [|[k' v'] d IH]; simpl.
  - split; [by intros [? ?]|by intros ?%elem_of_nil].
  - destruct (decide (k' = k)) as [->|Hne].
    + split; [intros _; left|by eauto].
    + rewrite IH, elem_of_cons. split; [by right|]. by intros [?|?].
Qed.

Lemma keys_set_in k v d : k ∈ keys d → keys (set k v d) = keys d.
Proof.
  unfold keys. induction d as [|[k' v'] d IH]; simpl.
  - by intros ?%elem_of_nil.
  - destruct (decide (k' = k)) as [->|Hne]; simpl; [done|].
    intros [?|Hin]%elem_of_cons; [done|]. f_equal. by apply IH.
Qed.

Lemma keys_app d d' : keys (d ++ d') = keys d ++ keys d'.
Proof. unfold keys. apply fmap_app. Qed.

End facts.

End PyDictFacts.

(** ** DXF constants *)

Module DxfFacts.
Import PyDict PyDictFacts DxfConst.

Lemma acadrelease_keys_NoDup : NoDup (keys acadrelease).
Proof. apply (bool_decide_unpack _). by vm_compute. Qed.

Lemma dxfversion_keys_NoDup : NoDup (keys dxfversion).
Proof. apply (bool_decide_unpack _). by vm_compute. Qed.

Example dxfversion_items :
  items dxfversion =
    [ ("R12", "AC1009"); ("R13", "AC1012"); ("R14", "AC1014");
      ("R2000", "AC1015"); ("R2004", "AC1018"); ("R2007", "AC1021");
      ("R2010", "AC1024") ].
Proof. reflexivity. Qed.

(** The comprehension exchanges key and value of every item. *)
Lemma dxfversion_swap : dxfversion = swap <$> acadrelease.
Proof. reflexivity. Qed.

Lemma elem_of_dxfversion r a : (r, a) ∈ dxfversion ↔ (a, r) ∈ acadrelease.
Proof.
  rewrite dxfversion_swap, list_elem_of_fmap. split.
  - intros ([a' r'] & [= -> ->] & Hin). done.
  - intros Hin. by exists (a, r).
Qed.

(** C10: the two DXF version tables are inverses of each other. For every
    version code [a] that is a key of [acadrelease],
    [dxfversion[acadrelease[a]] = a]; for every release name [r] that is a
    key of [dxfversion], [acadrelease[dxfversion[r]] = r]. Both are the two
    directions of: [acadrelease] maps [a] to [r] exactly when [dxfversion]
    maps [r] to [a]. *)
Theorem dxfversion_acadrelease_inverse (a r : string) :
  get a acadrelease = Some r ↔ get r dxfversion = Some a.
Proof.
  split; intros Hg%get_Some_elem_of.
  - apply elem_of_get_Some; [apply dxfversion_keys_NoDup|].
    by apply elem_of_dxfversion.
  - apply elem_of_get_Some; [apply acadrelease_keys_NoDup|].
    by apply elem_of_dxfversion.
Qed.

(** The round trip at [AC1015], which is [R2000]. *)
Lemma dxfversion_acadrelease_inverse_witness :
  get "AC1015" acadrelease = Some "R2000" ∧
  get "R2000" dxfversion = Some "AC1015".
Proof.
  split; [reflexivity|].
  apply (proj1 (dxfversion_acadrelease_inverse "AC1015" "R2000")).
  reflexivity.
Defined.

End DxfFacts.

(** ** Sheen material extension *)

Module SheenFacts.
Import PyDict PyDictFacts Sheen.

Section facts.
Context `{Host}.
Implicit Types (s : Socket) (es : ExportSettings)
  (st : list (string * ext_value) * list (string * UVMapInfo)).

(** The colour step writes only its own two keys. *)
Lemma export_sheen_color_keeps k s es st :
  k ≠ "sheenColorFactor" → k ≠ "sheenColorTexture" →
  get k (export_sheen_color s es st).1 = get k st.1.
Proof.
  intros Hf Ht. destruct st as [ext uv]. unfold export_sheen_color.
  destruct (non_linked s).
  - destruct (seq_ne _ _); simpl; [by rewrite get_set_ne|done].
  - destruct (has_image_node_from_socket s).
    + destruct (gather_texture_info _ _ _ _) as [[tex uvi] ?]. simpl.
      rewrite get_set_ne by done.
      destruct (seq_ne _ _); [by rewrite get_set_ne|done].
    + simpl. destruct (seq_ne _ _); [by rewrite get_set_ne|done].
Qed.

(** The roughness step writes only its own two keys. *)
Lemma export_sheen_roughness_keeps k s es st :
  k ≠ "sheenRoughnessFactor" → k ≠ "sheenRoughnessTexture" →
  get k (export_sheen_roughness s es st).1 = get k st.1.
Proof.
  intros Hf Ht. destruct st as [ext uv]. unfold export_sheen_roughness.
  destruct (non_linked s).
  - destruct (float_ne _ _); simpl; [by rewrite get_set_ne|done].
  - destruct (has_image_node_from_socket s).
    + destruct (gather_texture_info _ _ _ _) as [[tex uvi] ?]. simpl.
      rewrite get_set_ne by done.
      destruct (float_ne _ _); [by rewrite get_set_ne|done].
    + simpl. destruct (float_ne _ _); [by rewrite get_set_ne|done].
Qed.

Lemma export_sheen_roughness_keeps_uv k s es st :
  k ≠ "sheenRoughnessTexture" →
  get k (export_sheen_roughness s es st).2 = get k st.2.
Proof.
  intros Ht. destruct st as [ext uv]. unfold export_sheen_roughness.
  destruct (non_linked s).
  - by destruct (float_ne _ _).
  - destruct (has_image_node_from_socket s); [|done].
    destruct (gather_texture_info _ _ _ _) as [[tex uvi] ?]. simpl.
    by rewrite get_set_ne.
Qed.

(** With both sockets, the result is the extension built by the two steps. *)
Lemma export_sheen_both m es sc sr :
  get_socket m "sheenColor" = Some sc →
  get_socket m "sheenRoughness" = Some sr →
  export_sheen m es =
    let st := export_sheen_roughness sr es (export_sheen_color sc es ([], [])) in
    (Some {| ext_name := "KHR_materials_sheen";
             ext_extension := st.1;
             ext_required := false |}, st.2).
Proof.
  intros Hc Hr. unfold export_sheen. rewrite Hc, Hr.
  by destruct (export_sheen_roughness _ _ _).
Qed.

(** C6: when neither the sheen colour socket nor the sheen roughness socket
    exists on the material, [export_sheen] returns no extension and an
    empty auxiliary (uvmap) mapping: the pair [(None, {})]. *)
Theorem export_sheen_no_sockets m es :
  get_socket m "sheenColor" = None →
  get_socket m "sheenRoughness" = None →
  export_sheen m es = (None, []).
Proof. intros Hc Hr. unfold export_sheen. by rewrite Hc. Qed.

(** C9: [export_sheen] returns the no-extension result [(None, {})] as soon
    as one of the two sockets is missing, and it produces an extension
    record only when both sockets exist (and then it always does). *)
Theorem export_sheen_one_socket_missing m es :
  (get_socket m "sheenColor" = None ∨ get_socket m "sheenRoughness" = None →
   export_sheen m es = (None, [])) ∧
  (is_Some (export_sheen m es).1 ↔
   is_Some (get_socket m "sheenColor") ∧
   is_Some (get_socket m "sheenRoughness")).
Proof.
  unfold export_sheen.
  destruct (get_socket m "sheenColor") as [sc|],
           (get_socket m "sheenRoughness") as [sr|]; simpl.
  - destruct (export_sheen_roughness _ _ _) as [ext uv]. simpl. split.
    + by intros [?|?].
    + split; [by intros _; split; eauto|by eauto].
  - split; [done|]. split; [by intros [? ?]|by intros [_ [? ?]]].
  - split; [done|]. split; [by intros [? ?]|by intros [[? ?] _]].
  - split; [done|]. split; [by intros [? ?]|by intros [[? ?] _]].
Qed.

(** C7, amended: for every material on which both sockets exist, a sheen
    colour (resp. sheen roughness) socket that is an unlinked node socket
    and holds a value different from black [(0,0,0)] (resp. from [0.0])
    has that value recorded under ['sheenColorFactor'] (resp.
    ['sheenRoughnessFactor']) in the extension record, and an unlinked
    socket holding the default value records no factor. *)
Theorem export_sheen_unlinked_factor m es sc sr :
  get_socket m "sheenColor" = Some sc →
  get_socket m "sheenRoughness" = Some sr →
  ∃ ext uv, export_sheen m es = (Some ext, uv) ∧
    (isinstance_NodeSocket sc = true → is_linked sc = false →
     let color := take 3 (default_value_array sc) in
     get "sheenColorFactor" (ext_extension ext) =
       if seq_ne color black then Some (VTuple color) else None) ∧
    (isinstance_NodeSocket sr = true → is_linked sr = false →
     let fac := default_value_float sr in
     get "sheenRoughnessFactor" (ext_extension ext) =
       if float_ne fac float_0 then Some (VFloat fac) else None).
Proof.
  intros Hc Hr. rewrite (export_sheen_both m es sc sr Hc Hr).
  eexists _, _. split; [reflexivity|]. cbn [ext_extension]. cbv zeta. split.
  - intros Hn Hl. rewrite export_sheen_roughness_keeps by done.
    unfold export_sheen_color, non_linked. rewrite Hn, Hl. simpl.
    by destruct (seq_ne _ _).
  - intros Hn Hl.
    pose proof (export_sheen_color_keeps "sheenRoughnessFactor" sc es ([], []))
      as Hkeep.
    destruct (export_sheen_color sc es ([], [])) as [ext uv].
    unfold export_sheen_roughness, non_linked. rewrite Hn, Hl. simpl.
    destruct (float_ne _ _); simpl; [apply get_set_eq|].
    by apply Hkeep.
Qed.

(** C5, amended: for every material on which both sockets exist, a sheen
    colour (resp. sheen roughness) socket that is linked and has an image
    node upstream gets a texture reference recorded under
    ['sheenColorTexture'] (resp. ['sheenRoughnessTexture']), with its uvmap
    information in the auxiliary mapping. The texture does not replace the
    factor: the factor found upstream of the socket, or 1.0 on every
    channel when there is none, is recorded as well unless it is zero. *)
Theorem export_sheen_linked_image m es sc sr :
  get_socket m "sheenColor" = Some sc →
  get_socket m "sheenRoughness" = Some sr →
  ∃ ext uv, export_sheen m es = (Some ext, uv) ∧
    (is_linked sc = true → has_image_node_from_socket sc = true →
     let info := gather_texture_info sc [sc] [] es in
     let fac := default [float_1; float_1; float_1]
                        (get_factor_from_socket_RGB sc) in
     get "sheenColorTexture" (ext_extension ext) = Some (VTexture info.1.1) ∧
     get "sheenColorTexture" uv = Some info.1.2 ∧
     get "sheenColorFactor" (ext_extension ext) =
       if seq_ne fac black then Some (VList fac) else None) ∧
    (is_linked sr = true → has_image_node_from_socket sr = true →
     let info := gather_texture_info sr [sr] [] es in
     let fac := default float_1 (get_factor_from_socket_VALUE sr) in
     get "sheenRoughnessTexture" (ext_extension ext) = Some (VTexture info.1.1) ∧
     get "sheenRoughnessTexture" uv = Some info.1.2 ∧
     get "sheenRoughnessFactor" (ext_extension ext) =
       if float_ne fac float_0 then Some (VFloat fac) else None).
Proof.
  intros Hc Hr. rewrite (export_sheen_both m es sc sr Hc Hr).
  eexists _, _. split; [reflexivity|]. cbn [ext_extension]. cbv zeta. split.
  - intros Hl Hi.
    rewrite !export_sheen_roughness_keeps, export_sheen_roughness_keeps_uv
      by done.
    unfold export_sheen_color, non_linked. rewrite Hl, Hi, andb_false_r.
    destruct (gather_texture_info sc [sc] [] es) as [[tex uvi] ?]. simpl.
    split; [apply get_set_eq|]. split; [done|].
    rewrite get_set_ne by done.
    destruct (get_factor_from_socket_RGB sc) as [fac|]; simpl;
      destruct (seq_ne _ _); simpl; by rewrite ?decide_True.
  - intros Hl Hi.
    pose proof (export_sheen_color_keeps "sheenRoughnessFactor" sc es ([], []))
      as Hkeep.
    destruct (export_sheen_color sc es ([], [])) as [ext uv].
    unfold export_sheen_roughness, non_linked. rewrite Hl, Hi, andb_false_r.
    destruct (gather_texture_info sr [sr] [] es) as [[tex uvi] ?]. simpl.
    split; [apply get_set_eq|]. split; [apply get_set_eq|].
    rewrite get_set_ne by done.
    destruct (get_factor_from_socket_VALUE sr) as [fac|]; simpl;
      (destruct (float_ne _ _); [apply get_set_eq|by apply Hkeep]).
Qed.

End facts.

(** The export of the sample materials. *)
Example export_sheen_both_unlinked :
  export_sheen mat_both_unlinked tt =
    (Some {| ext_name := "KHR_materials_sheen";
             ext_extension :=
               [ ("sheenColorFactor", VTuple [1 # 2; 1 # 2; 1]%Q);
                 ("sheenRoughnessFactor", VFloat (3 # 10)%Q) ];
             ext_required := false |},
     []).
Proof. reflexivity. Qed.

Example export_sheen_image_color :
  export_sheen mat_image_color tt =
    (Some {| ext_name := "KHR_materials_sheen";
             ext_extension :=
               [ ("sheenColorFactor", VList [1; 1; 1]%Q);
                 ("sheenColorTexture", VTexture "sheen.png") ];
             ext_required := false |},
     [("sheenColorTexture", "uv:sheen.png")]).
Proof. reflexivity. Qed.

(** C6 at a material without sheen sockets. *)
Lemma export_sheen_no_sockets_witness :
  export_sheen mat_no_sheen tt = (None, []).
Proof. apply (@export_sheen_no_sockets sample_host mat_no_sheen tt); reflexivity. Defined.

(** C9 at a material with a colour socket and no roughness socket. *)
Lemma export_sheen_one_socket_missing_witness :
  export_sheen mat_color_only tt = (None, []).
Proof.
  apply (proj1 (@export_sheen_one_socket_missing sample_host mat_color_only tt)).
  right. reflexivity.
Defined.

(** C7 as stated fails: the colour socket of [mat_color_only] exists, is an
    unlinked node socket and holds a colour that is not black, and yet no
    factor is recorded, because the material has no roughness socket and
    the export returns no extension record at all. *)
Lemma export_sheen_unlinked_factor_not_recorded :
  get_socket mat_color_only "sheenColor" = Some unlinked_color ∧
  isinstance_NodeSocket unlinked_color = true ∧
  is_linked unlinked_color = false ∧
  seq_ne (take 3 (default_value_array unlinked_color)) black = true ∧
  export_sheen mat_color_only tt = (None, []) ∧
  (sheen_dict (export_sheen mat_color_only tt) ≫= get "sheenColorFactor")
    = None.
Proof. repeat split. Qed.

(** C7, amended, at a material with both sockets unlinked and set. *)
Lemma export_sheen_unlinked_factor_witness :
  ∃ ext uv, export_sheen mat_both_unlinked tt = (Some ext, uv) ∧
    get "sheenColorFactor" (ext_extension ext)
      = Some (VTuple [1 # 2; 1 # 2; 1]%Q) ∧
    get "sheenRoughnessFactor" (ext_extension ext)
      = Some (VFloat (3 # 10)%Q).
Proof.
  destruct (@export_sheen_unlinked_factor sample_host mat_both_unlinked tt
              unlinked_color unlinked_roughness eq_refl eq_refl)
    as (ext & uv & Hex & Hcol & Hrough).
  exists ext, uv. split; [exact Hex|]. split.
  - exact (Hcol eq_refl eq_refl).
  - exact (Hrough eq_refl eq_refl).
Defined.

(** C5 as stated fails. The colour socket of [mat_image_color] is linked to
    an image, and the record holds the texture together with a factor, not
    instead of it; the colour socket of [mat_image_color_only] is linked to
    an image as well, and no texture is recorded, because the material has
    no roughness socket. *)
Lemma export_sheen_texture_beside_factor :
  get_socket mat_image_color "sheenColor" = Some image_color ∧
  is_linked image_color = true ∧
  has_image_node_from_socket image_color = true ∧
  (sheen_dict (export_sheen mat_image_color tt) ≫= get "sheenColorTexture")
    = Some (VTexture "sheen.png") ∧
  (sheen_dict (export_sheen mat_image_color tt) ≫= get "sheenColorFactor")
    = Some (VList [1; 1; 1]%Q) ∧
  get_socket mat_image_color_only "sheenColor" = Some image_color ∧
  export_sheen mat_image_color_only tt = (None, []).
Proof. repeat split. Qed.

(** C5, amended, at the material whose colour socket is fed by an image. *)
Lemma export_sheen_linked_image_witness :
  ∃ ext uv, export_sheen mat_image_color tt = (Some ext, uv) ∧
    get "sheenColorTexture" (ext_extension ext) = Some (VTexture "sheen.png") ∧
    get "sheenColorTexture" uv = Some "uv:sheen.png" ∧
    get "sheenColorFactor" (ext_extension ext) = Some (VList [1; 1; 1]%Q).
Proof.
  destruct (@export_sheen_linked_image sample_host mat_image_color tt
              image_color default_roughness eq_refl eq_refl)
    as (ext & uv & Hex & Hcol & _).
  exists ext, uv. split; [exact Hex|]. exact (Hcol eq_refl eq_refl).
Defined.

End SheenFacts.

(** ** The tongue rig *)

Module TongueFacts.
Import PyDict PyDictFacts Tongue.

Section facts.
Context `{Env}.
Implicit Types (s : State) (eb : list (string * EditBone)).

(** Running a bind: the two cases of the first computation. *)
Lemma bind_Return {A B} (m : M A) (f : A → M B) s a s' :
  m s = (Return a, s') → (m ≫= f) s = f a s'.
Proof. intros Hm. unfold mbind, M_bind. by rewrite Hm. Qed.

Lemma bind_Raise {A B} (m : M A) (f : A → M B) s e s' :
  m s = (Raise e, s') → (m ≫= f) s = (Raise e, s').
Proof. intros Hm. unfold mbind, M_bind. by rewrite Hm. Qed.

Lemma set_edit_bones_id s : set_edit_bones (edit_bones (obj s)) s = s.
Proof. by destruct s as [r [eb cs] rep]. Qed.

Lemma has_bone_get s name :
  has_bone s name → ∃ b, get name (edit_bones (obj s)) = Some b.
Proof. intros Hb. by apply get_is_Some in Hb as [b Hb]; eauto. Qed.

Lemma has_bone_set_edit_bones s eb name :
  keys eb = bone_names s → has_bone (set_edit_bones eb s) name ↔ has_bone s name.
Proof. unfold has_bone, bone_names. simpl. by intros ->. Qed.

(** *** The bone utilities *)

Lemma edit_bone_Return s name b :
  get name (edit_bones (obj s)) = Some b → edit_bone name s = (Return b, s).
Proof. intros Hg. unfold edit_bone, mbind, M_bind, gets. simpl. by rewrite Hg. Qed.

Lemma copy_bone_Return s bone_name assign_name parent :
  has_bone s bone_name →
  ∃ b,
    copy_bone bone_name assign_name parent s =
      (Return (new_bone_name (bone_names s)
                 (requested_name bone_name assign_name)),
       set_edit_bones
         (edit_bones (obj s) ++
          [(new_bone_name (bone_names s)
              (requested_name bone_name assign_name), b)]) s).
Proof.
  intros [b Hg]%has_bone_get.
  unfold copy_bone, mbind, M_bind, gets, modify. simpl. rewrite Hg.
  by eexists.
Qed.

Lemma flip_bone_Return s name :
  has_bone s name →
  ∃ eb, flip_bone name s = (Return tt, set_edit_bones eb s) ∧
        keys eb = bone_names s.
Proof.
  intros Hb. destruct (has_bone_get s name Hb) as [b Hg].
  unfold flip_bone, mbind, M_bind, gets, modify. simpl. rewrite Hg.
  eexists. split; [reflexivity|]. by apply keys_set_in.
Qed.

Lemma copy_bone_position_Return s name target :
  has_bone s name → has_bone s target →
  ∃ eb, copy_bone_position name target s = (Return tt, set_edit_bones eb s) ∧
        keys eb = bone_names s.
Proof.
  intros [b1 Hg1]%has_bone_get Ht.
  destruct (has_bone_get s target Ht) as [b2 Hg2].
  unfold copy_bone_position.
  rewrite (bind_Return _ _ _ _ _ (edit_bone_Return s name b1 Hg1)).
  rewrite (bind_Return _ _ _ _ _ (edit_bone_Return s target b2 Hg2)).
  unfold mbind, M_bind, gets, modify. simpl.
  eexists. split; [reflexivity|]. by apply keys_set_in.
Qed.

Lemma set_bone_parent_Return s name parent b :
  get name (edit_bones (obj s)) = Some b →
  (∀ p, parent = Some p → has_bone s p) →
  set_bone_parent name parent s =
    (Return tt,
     set_edit_bones
       (set name {| eb_head := eb_head b; eb_tail := eb_tail b;
                    eb_roll := eb_roll b; eb_parent := parent;
                    eb_use_connect := false |}
            (edit_bones (obj s))) s).
Proof.
  intros Hg Hp. unfold set_bone_parent.
  rewrite (bind_Return _ _ _ _ _ (edit_bone_Return s name b Hg)).
  destruct parent as [p|].
  - destruct (has_bone_get s p (Hp p eq_refl)) as [bp Hgp].
    unfold mbind at 1, M_bind at 1.
    rewrite (bind_Return _ _ _ _ _ (edit_bone_Return s p bp Hgp)).
    reflexivity.
  - reflexivity.
Qed.

Lemma make_constraint_Return s bone type_ target influence :
  has_bone s bone →
  make_constraint bone type_ target influence s =
    (Return tt,
     add_constraint {| con_owner := bone; con_type := type_;
                       con_subtarget := target;
                       con_influence := influence |} s).
Proof.
  intros [b Hg]%has_bone_get. unfold make_constraint.
  by rewrite (bind_Return _ _ _ _ _ (edit_bone_Return s bone b Hg)).
Qed.

(** *** Initialisation and the chain length *)

Lemma super_initialize_short s :
  length (bones_org (self s)) < min_chain_length →
  super_initialize s =
    (Raise (ConfigurationError (base_bone (self s)) min_chain_length),
     add_report (ConfigurationError (base_bone (self s)) min_chain_length) s).
Proof.
  intros Hlen. unfold super_initialize, mbind, M_bind, gets. simpl.
  by rewrite decide_True.
Qed.

Lemma super_initialize_Return s :
  min_chain_length ≤ length (bones_org (self s)) →
  super_initialize s = (Return tt, s).
Proof.
  intros Hlen. unfold super_initialize, mbind, M_bind, gets. simpl.
  rewrite decide_False; [done|lia].
Qed.

(** C4: when the input chain has fewer than three bones, the build of the
    rig fails with a configuration error, the error is entered in the host
    build report, and nothing else changes: no bone is created, and the
    armature, with the bones of every other rig in it, is as it was. *)
Theorem build_rig_chain_too_short s :
  length (bones_org (self s)) < 3 →
  ∃ e s',
    build_rig s = (Raise e, s') ∧
    e = ConfigurationError (base_bone (self s)) 3 ∧
    report s' = report s ++ [e] ∧
    obj s' = obj s ∧
    bone_names s' = bone_names s ∧
    self s' = self s.
Proof.
  intros Hlen. eexists _, _. split.
  - unfold build_rig, initialize.
    apply bind_Raise, bind_Raise. by apply super_initialize_short.
  - done.
Qed.

(** C8: the segment parameter [bbones] is declared as an integer property
    with minimum 1 and default 10, and initialisation copies its value to
    the rig's b-bone segment setting. The layer helper called after the
    declaration is assumed to leave [bbones] alone. *)
Theorem bbones_parameter params s :
  (∀ p, get "bbones" (skin_primary_add_parameters p) = get "bbones" p) →
  3 ≤ length (bones_org (self s)) →
  (∃ p,
     get "bbones" (add_parameters params) = Some p ∧
     property_min p = Some 1%Z ∧
     property_default p = Some 10%Z) ∧
  ∃ s',
    initialize s = (Return tt, s') ∧
    bbone_segments (self s') = params_bbones (self s) ∧
    params_bbones (self s') = params_bbones (self s) ∧
    bones_org (self s') = bones_org (self s) ∧
    obj s' = obj s ∧
    report s' = report s.
Proof.
  intros Hlayers Hlen. split.
  - exists bbones_property. split; [|done].
    unfold add_parameters. rewrite Hlayers. apply get_set_eq.
  - eexists. split.
    + unfold initialize.
      by rewrite (bind_Return _ _ _ _ _ (super_initialize_Return s Hlen)).
    + done.
Qed.

(** *** The follow chain *)

Lemma make_mch_follow_bone_Return i org s :
  has_bone s org → has_bone s (base_bone (self s)) →
  ∃ eb,
    make_mch_follow_bone i org s =
      (Return (new_bone_name (bone_names s)
                 (requested_name org (make_derived_name org "mch"))),
       set_edit_bones eb s) ∧
    keys eb = bone_names s ++
      [new_bone_name (bone_names s)
         (requested_name org (make_derived_name org "mch"))].
Proof.
  intros Horg Hbase. unfold make_mch_follow_bone.
  destruct (copy_bone_Return s org (make_derived_name org "mch") false Horg)
    as [b Hcopy].
  set (name := new_bone_name _ _) in *.
  set (s1 := set_edit_bones _ s) in Hcopy.
  assert (bone_names s1 = bone_names s ++ [name]) as Hnames1.
  { unfold s1, bone_names. simpl. by rewrite keys_app. }
  rewrite (bind_Return _ _ _ _ _ Hcopy).
  unfold mbind at 1, M_bind at 1, gets at 1. simpl.
  destruct (copy_bone_position_Return s1 (base_bone (self s)) name)
    as (eb2 & Hpos & Hkeys2).
  { unfold has_bone. rewrite Hnames1. apply elem_of_app. by left. }
  { unfold has_bone. rewrite Hnames1. apply elem_of_app. right. left. }
  rewrite (bind_Return _ _ _ _ _ Hpos).
  destruct (flip_bone_Return (set_edit_bones eb2 s1) name)
    as (eb3 & Hflip & Hkeys3).
  { apply has_bone_set_edit_bones; [done|].
    unfold has_bone. rewrite Hnames1. apply elem_of_app. right. left. }
  rewrite (bind_Return _ _ _ _ _ Hflip).
  exists eb3. split; [done|].
  rewrite Hkeys3. unfold bone_names at 1. simpl. by rewrite Hkeys2.
Qed.

(** The loop of [make_follow_chain]: one bone per element of the list, in
    order, each named by the host from the names in use at that moment. *)
Lemma make_follow_bones_Return l : ∀ start s,
  (∀ org, org ∈ l → has_bone s org) →
  has_bone s (base_bone (self s)) →
  ∃ names eb,
    map_list_count make_mch_follow_bone start l s =
      (Return names, set_edit_bones eb s) ∧
    keys eb = bone_names s ++ names ∧
    length names = length l ∧
    ∀ k org, l !! k = Some org →
      names !! k =
        Some (new_bone_name (bone_names s ++ take k names)
                (requested_name org (make_derived_name org "mch"))).
Proof.
  induction l as [|org l IH]; intros start s Hl Hbase.
  - exists [], (edit_bones (obj s)). simpl.
    rewrite set_edit_bones_id. unfold bone_names.
    by rewrite app_nil_r.
  - destruct (make_mch_follow_bone_Return start org s) as (eb1 & Hone & Hkeys1);
      [apply Hl; left|done|].
    set (name := new_bone_name _ _) in *.
    set (s1 := set_edit_bones eb1 s).
    assert (bone_names s1 = bone_names s ++ [name]) as Hnames1 by done.
    destruct (IH (S start) s1) as (names & eb & Hrest & Hkeys & Hlen & Hnth).
    { intros o Ho. unfold has_bone. rewrite Hnames1.
      apply elem_of_app. left. apply Hl. by right. }
    { unfold has_bone. rewrite Hnames1. apply elem_of_app. by left. }
    exists (name :: names), eb. split; [|split; [|split]].
    + simpl. rewrite (bind_Return _ _ _ _ _ Hone).
      fold s1. by rewrite (bind_Return _ _ _ _ _ Hrest).
    + rewrite Hkeys, Hnames1. by rewrite <- app_assoc.
    + simpl. by rewrite Hlen.
    + intros [|k] o Hk; simpl in *.
      * injection Hk as <-. by rewrite app_nil_r.
      * rewrite (Hnth k o Hk), Hnames1. by rewrite <- app_assoc.
Qed.

(** Names chosen one after the other, each outside the names in use, are
    pairwise distinct and new. *)
Lemma NoDup_app_fresh (base names : list string) :
  NoDup base →
  (∀ k x, names !! k = Some x → x ∉ base ++ take k names) →
  NoDup (base ++ names).
Proof.
  induction names as [|x names IH] using rev_ind; intros Hbase Hfresh.
  - by rewrite app_nil_r.
  - rewrite app_assoc. apply NoDup_app. split; [|split].
    + apply IH; [done|]. intros k y Hk.
      pose proof (lookup_lt_Some _ _ _ Hk) as Hlt.
      specialize (Hfresh k y). rewrite lookup_app_l in Hfresh by done.
      rewrite take_app_le in Hfresh by lia. by apply Hfresh.
    + intros y Hy ->%list_elem_of_singleton.
      apply (Hfresh (length names) x); [|].
      * by rewrite lookup_app_r, Nat.sub_diag.
      * by rewrite take_app_length.
    + apply NoDup_singleton.
Qed.

(** C2: for an input chain of [N >= 3] original bones that are in the
    armature, the build-follow-chain operation creates exactly [N-1] follow
    bones, one for each original bone after the first and in the order of
    the input chain: the bones of the armature afterwards are the earlier
    ones followed by the follow chain, and follow bone [k] is the copy of
    original bone [k+1], under the name the host chose for it. With a host
    that chooses unused names, the follow bones are new and distinct. *)
Theorem make_follow_chain_creates s :
  3 ≤ length (bones_org (self s)) →
  (∀ org, org ∈ bones_org (self s) → has_bone s org) →
  has_bone s (base_bone (self s)) →
  ∃ follow s',
    make_follow_chain s = (Return tt, s') ∧
    bones_mch_follow (self s') = Some follow ∧
    length follow = length (bones_org (self s)) - 1 ∧
    bone_names s' = bone_names s ++ follow ∧
    (∀ k, k < length follow →
       ∃ org, bones_org (self s) !! (S k) = Some org ∧
         follow !! k =
           Some (new_bone_name (bone_names s ++ take k follow)
                   (requested_name org (make_derived_name org "mch")))) ∧
    ((∀ taken name, new_bone_name taken name ∉ taken) →
     NoDup (bone_names s) → NoDup (bone_names s')) ∧
    bones_org (self s') = bones_org (self s) ∧
    constraints (obj s') = constraints (obj s) ∧
    report s' = report s.
Proof.
  intros HN Horg Hbase.
  destruct (make_follow_bones_Return (drop 1 (bones_org (self s))) 1 s)
    as (follow & eb & Hrun & Hkeys & Hlen & Hnth); [|done|].
  { intros o Ho. apply Horg. by apply (subseteq_drop 1). }
  rewrite length_drop in Hlen.
  exists follow, (set_self (with_mch_follow follow (self s)) (set_edit_bones eb s)).
  split; [|split; [done|split; [done|split; [done|split; [|split; [|done]]]]]].
  - unfold make_follow_chain, mbind at 1, M_bind at 1, gets at 1. simpl.
    by rewrite (bind_Return _ _ _ _ _ Hrun).
  - intros k Hk.
    destruct (lookup_lt_is_Some_2 (drop 1 (bones_org (self s))) k) as [o Ho].
    { rewrite length_drop. lia. }
    exists o. split; [by rewrite lookup_drop in Ho|by apply Hnth].
  - intros Hfresh Hnd. unfold bone_names at 1. simpl. rewrite Hkeys.
    apply NoDup_app_fresh; [done|].
    intros k x Hx.
    destruct (lookup_lt_is_Some_2 (drop 1 (bones_org (self s))) k) as [o Ho].
    { rewrite length_drop, <- Hlen. by apply lookup_lt_Some in Hx. }
    rewrite (Hnth k o Ho) in Hx. injection Hx as <-. apply Hfresh.
Qed.

(** *** Rounding to binary64 *)

Lemma pow2_neg k : (k < 0)%Z → pow2 k = 1 # Z.to_pos (2 ^ (- k)).
Proof. intros Hk. unfold pow2. by rewrite decide_False by lia. Qed.

Lemma pow2_pos k : (0 < pow2 k)%Q.
Proof.
  unfold pow2. destruct (decide (0 ≤ k)%Z).
  - unfold Qlt. simpl. pose proof (Z.pow_pos_nonneg 2 k). lia.
  - reflexivity.
Qed.

(** The spacing of the floats up to 1 is at most [2^-52]. *)
Lemma pow2_le_ulp e : (e ≤ 0)%Z → (pow2 (e - 52) <= 1 # 2 ^ 52)%Q.
Proof.
  intros He. rewrite pow2_neg by lia. unfold Qle. simpl.
  assert (2 ^ 52 ≤ 2 ^ (- (e - 52)))%Z as Hp
    by (apply Z.pow_le_mono_r; lia).
  rewrite Z2Pos.id by lia. change (Z.pos (2 ^ 52)) with (2 ^ 52)%Z. lia.
Qed.

(** Comparing a rational with a power of two, in integers. *)
Lemma pow2_le k x :
  (pow2 k <= x)%Q ↔
  (2 ^ Z.max k 0 * Z.pos (Qden x) ≤ Qnum x * 2 ^ Z.max (- k) 0)%Z.
Proof.
  unfold pow2, Qle. destruct (decide (0 ≤ k)%Z); simpl.
  - rewrite Z.max_l, Z.max_r by lia. simpl. lia.
  - rewrite Z.max_r, Z.max_l by lia.
    pose proof (Z.pow_pos_nonneg 2 (- k)).
    rewrite Z2Pos.id by lia. simpl. lia.
Qed.

(** [floor_log2] is the binary exponent: [2^e <= x < 2^(e+1)]. *)
Lemma floor_log2_spec x :
  (0 < x)%Q →
  (pow2 (floor_log2 x) <= x)%Q ∧ (x < pow2 (floor_log2 x + 1))%Q.
Proof.
  intros Hx.
  assert (0 < Qnum x)%Z as Hn by (unfold Qlt in Hx; simpl in Hx; lia).
  destruct (Z.log2_spec (Qnum x) Hn) as [Hnl Hnh].
  destruct (Z.log2_spec (Z.pos (Qden x)) ltac:(lia)) as [Hdl Hdh].
  pose proof (Z.log2_nonneg (Qnum x)) as Ha.
  pose proof (Z.log2_nonneg (Z.pos (Qden x))) as Hb.
  set (n := Qnum x) in *. set (d := Z.pos (Qden x)) in *.
  set (a := Z.log2 n) in *. set (b := Z.log2 d) in *.
  assert (∀ k, ¬ (pow2 k <= x)%Q ↔
               (n * 2 ^ Z.max (- k) 0 < 2 ^ Z.max k 0 * d)%Z) as Hlt.
  { intros k. rewrite pow2_le. fold n d. lia. }
  assert (∀ k, (x < pow2 k)%Q ↔ ¬ (pow2 k <= x)%Q) as Hnle.
  { intros k. split; [apply Qlt_not_le|apply Qnot_le_lt]. }
  (* below [2^(a-b+1)] and not below [2^(a-b-1)] *)
  assert (x < pow2 (a - b + 1))%Q as Hhi.
  { apply Hnle, Hlt.
    destruct (decide (0 ≤ a - b + 1)%Z).
    - rewrite (Z.max_l (a - b + 1) 0), (Z.max_r (- (a - b + 1)) 0) by lia.
      assert (2 ^ (a - b + 1) * 2 ^ b = 2 ^ Z.succ a)%Z as Hp.
      { rewrite <- Z.pow_add_r by lia. f_equal. lia. }
      pose proof (Z.pow_pos_nonneg 2 (a - b + 1)). simpl. nia.
    - rewrite (Z.max_r (a - b + 1) 0), (Z.max_l (- (a - b + 1)) 0) by lia.
      assert (2 ^ Z.succ a * 2 ^ (- (a - b + 1)) = 2 ^ b)%Z as Hp.
      { rewrite <- Z.pow_add_r by lia. f_equal. lia. }
      pose proof (Z.pow_pos_nonneg 2 (- (a - b + 1))). simpl. nia. }
  assert (pow2 (a - b - 1) <= x)%Q as Hlo.
  { apply pow2_le. fold n d.
    destruct (decide (0 ≤ a - b - 1)%Z).
    - rewrite (Z.max_l (a - b - 1) 0), (Z.max_r (- (a - b - 1)) 0) by lia.
      assert (2 ^ (a - b - 1) * 2 ^ Z.succ b = 2 ^ a)%Z as Hp.
      { rewrite <- Z.pow_add_r by lia. f_equal. lia. }
      pose proof (Z.pow_pos_nonneg 2 (a - b - 1)). simpl. nia.
    - rewrite (Z.max_r (a - b - 1) 0), (Z.max_l (- (a - b - 1)) 0) by lia.
      assert (2 ^ a * 2 ^ (- (a - b - 1)) = 2 ^ Z.succ b)%Z as Hp.
      { rewrite <- Z.pow_add_r by lia. f_equal. lia. }
      pose proof (Z.pow_pos_nonneg 2 (- (a - b - 1))). simpl. nia. }
  unfold floor_log2. fold n d a b.
  destruct (Qle_bool (pow2 (a - b)) x) eqn:Hc.
  - apply Qle_bool_iff in Hc. done.
  - split; [done|]. replace (a - b - 1 + 1)%Z with (a - b)%Z by lia.
    apply Hnle. intros Hle. apply Qle_bool_iff in Hle. congruence.
Qed.

Lemma round_half_even_near m :
  (m - (1 # 2) <= inject_Z (round_half_even m) <= m + (1 # 2))%Q.
Proof.
  unfold round_half_even.
  pose proof (Qfloor_le m) as Hlo. pose proof (Qlt_floor m) as Hhi.
  rewrite inject_Z_plus in Hhi. change (inject_Z 1) with 1%Q in Hhi.
  destruct (2 * (m - inject_Z (Qfloor m)) ?= 1)%Q eqn:Hc.
  - apply Qeq_alt in Hc.
    destruct (Z.even (Qfloor m)); rewrite ?inject_Z_plus;
      change (inject_Z 1) with 1%Q; lra.
  - apply Qlt_alt in Hc. lra.
  - apply Qgt_alt in Hc. rewrite inject_Z_plus.
    change (inject_Z 1) with 1%Q. lra.
Qed.

Lemma floor_log2_unit x : (0 < x)%Q → (x <= 1)%Q → (floor_log2 x ≤ 0)%Z.
Proof.
  intros H0 H1. unfold floor_log2.
  assert (Z.log2 (Qnum x) ≤ Z.log2 (Z.pos (Qden x)))%Z as Hl.
  { apply Z.log2_le_mono. unfold Qle in H1. simpl in H1. lia. }
  destruct (Qle_bool _ x); lia.
Qed.

(** Rounding moves a number by at most half the spacing of the floats
    around it. *)
Lemma round_pos_half_ulp x :
  (0 < x)%Q →
  let ulp := pow2 (Z.max (floor_log2 x) (-1022) - 52) in
  (x - (1 # 2) * ulp <= round_pos x <= x + (1 # 2) * ulp)%Q.
Proof.
  intros H0 ulp. unfold round_pos. fold ulp.
  pose proof (pow2_pos (Z.max (floor_log2 x) (-1022) - 52)) as Hup.
  fold ulp in Hup.
  pose proof (round_half_even_near (x / ulp)) as [Hlo Hhi].
  set (r := inject_Z (round_half_even (x / ulp))) in *.
  assert (x == (x / ulp) * ulp)%Q as Hx by (field; lra).
  set (m := (x / ulp)%Q) in *.
  assert ((m - (1 # 2)) * ulp <= r * ulp)%Q as Ha
    by (apply Qmult_le_compat_r; lra).
  assert (r * ulp <= (m + (1 # 2)) * ulp)%Q as Hb
    by (apply Qmult_le_compat_r; lra).
  split; lra.
Qed.

Lemma round_pos_unit x :
  (0 < x)%Q → (x <= 1)%Q →
  (x - (1 # 2 ^ 53) <= round_pos x <= x + (1 # 2 ^ 53))%Q.
Proof.
  intros H0 H1.
  pose proof (floor_log2_unit x H0 H1) as He.
  pose proof (round_pos_half_ulp x H0) as [Hlo Hhi].
  pose proof (pow2_le_ulp (Z.max (floor_log2 x) (-1022)) ltac:(lia)) as Hule.
  assert ((1 # 2 ^ 53) == (1 # 2) * (1 # 2 ^ 52))%Q as Heps by reflexivity.
  split; lra.
Qed.

(** A number between 0 and 1 is rounded to a float within [2^-53] of it. *)
Lemma round64_unit x :
  (0 <= x)%Q → (x <= 1)%Q →
  ∃ y, round64 x = Finite y ∧ (x - (1 # 2 ^ 53) <= y <= x + (1 # 2 ^ 53))%Q.
Proof.
  intros H0 H1. unfold round64.
  assert (0 <= 1 # 2 ^ 53)%Q as Heps0 by (vm_compute; discriminate).
  destruct (x ?= 0)%Q eqn:Hc.
  - apply Qeq_alt in Hc. exists 0%Q. split; [done|]. split; lra.
  - apply Qlt_alt in Hc. lra.
  - apply Qgt_alt in Hc.
    pose proof (round_pos_unit x Hc H1) as [Hlo Hhi].
    exists (round_pos x). split; [|done].
    destruct (Qle_bool (pow2 1024) (round_pos x)) eqn:Hov; [|done].
    apply Qle_bool_iff in Hov.
    assert (3 <= pow2 1024)%Q as Hbig by (vm_compute; discriminate).
    assert ((1 # 2 ^ 53) <= 1)%Q as Heps by (vm_compute; discriminate).
    lra.
Qed.

(** *** The follow constraints *)

Lemma lookup_enumerate_from {A} (l : list A) : ∀ start i,
  enumerate_from start l !! i = (λ x, (start + i, x)) <$> l !! i.
Proof.
  induction l as [|x l IH]; intros start [|i]; simpl; try done.
  - by rewrite Nat.add_0_r.
  - rewrite IH. by rewrite Nat.add_succ_r.
Qed.

Lemma length_enumerate_from {A} (l : list A) start :
  length (enumerate_from start l) = length l.
Proof. revert start. induction l as [|x l IH]; intros start; simpl; auto. Qed.

Lemma foldl_add_constraint cs : ∀ s,
  constraints (obj (foldl (λ s c, add_constraint c s) s cs))
    = constraints (obj s) ++ cs ∧
  edit_bones (obj (foldl (λ s c, add_constraint c s) s cs))
    = edit_bones (obj s) ∧
  self (foldl (λ s c, add_constraint c s) s cs) = self s ∧
  report (foldl (λ s c, add_constraint c s) s cs) = report s.
Proof.
  induction cs as [|c cs IH]; intros s; simpl.
  - by rewrite app_nil_r.
  - destruct (IH (add_constraint c s)) as (-> & -> & -> & ->). simpl.
    by rewrite <- app_assoc.
Qed.

(** The quotient [(1+i)/N] as a fraction, and its place between 0 and 1. *)
Lemma quotient_fraction (i N : nat) :
  0 < N →
  (inject_Z (1 + Z.of_nat i) / inject_Z (Z.of_nat N) ==
   Z.of_nat (i + 1) # Pos.of_nat N)%Q.
Proof.
  intros HN.
  assert (Z.of_nat N = Z.pos (Pos.of_nat N)) as HZ.
  { rewrite <- positive_nat_Z, Nat2Pos.id; lia. }
  rewrite HZ. unfold Qeq, Qdiv, Qmult, Qinv, inject_Z. simpl. lia.
Qed.

Lemma fraction_bounds (i N : nat) :
  i + 1 ≤ N →
  ((1 # Pos.of_nat N) <= Z.of_nat (i + 1) # Pos.of_nat N)%Q ∧
  ((Z.of_nat (i + 1) # Pos.of_nat N) + (1 # Pos.of_nat N)
     <= 1 + (1 # Pos.of_nat N))%Q ∧
  (i + 1 < N →
   ((Z.of_nat (i + 1) # Pos.of_nat N) + (1 # Pos.of_nat N) <= 1)%Q).
Proof.
  intros Hi.
  assert (Z.of_nat N = Z.pos (Pos.of_nat N)) as HZ.
  { rewrite <- positive_nat_Z, Nat2Pos.id; lia. }
  unfold Qle, Qplus. simpl. rewrite <- HZ. split; [|split; [|intros Hlt]]; nia.
Qed.

Lemma fraction_step (i j N : nat) :
  0 < N → i < j →
  ((Z.of_nat (i + 1) # Pos.of_nat N) + (1 # Pos.of_nat N)
     <= Z.of_nat (j + 1) # Pos.of_nat N)%Q.
Proof.
  intros HN Hij.
  assert (Z.of_nat N = Z.pos (Pos.of_nat N)) as HZ.
  { rewrite <- positive_nat_Z, Nat2Pos.id; lia. }
  unfold Qle, Qplus. simpl. rewrite <- HZ. nia.
Qed.

Lemma fraction_last (N : nat) :
  2 ≤ N →
  (1 - (Z.of_nat (N - 2 + 1) # Pos.of_nat N) == 1 # Pos.of_nat N)%Q.
Proof.
  intros HN.
  assert (Z.of_nat N = Z.pos (Pos.of_nat N)) as HZ.
  { rewrite <- positive_nat_Z, Nat2Pos.id; lia. }
  unfold Qeq, Qminus, Qplus, Qopp. simpl. rewrite <- HZ. nia.
Qed.

(** With at most [2^50] bones, [1/N] is at least [2^-50]. *)
Lemma inverse_bound (N : nat) :
  0 < N → (Z.of_nat N ≤ 2 ^ 50)%Z → ((1 # 2 ^ 50) <= 1 # Pos.of_nat N)%Q.
Proof.
  intros HN Hmax.
  assert (Z.of_nat N = Z.pos (Pos.of_nat N)) as HZ.
  { rewrite <- positive_nat_Z, Nat2Pos.id; lia. }
  unfold Qle. simpl. rewrite <- HZ.
  change (Z.pos (2 ^ 50)) with (2 ^ 50)%Z. lia.
Qed.

(** The quotient of [rig_follow_chain], the index being below the number of
    original bones: a float within [2^-53] of [(i+1)/N]. *)
Lemma quotient_rounded (i N : nat) :
  i + 1 ≤ N →
  ∃ q,
    round64 (inject_Z (1 + Z.of_nat i) / inject_Z (Z.of_nat N)) = Finite q ∧
    ((Z.of_nat (i + 1) # Pos.of_nat N) - (1 # 2 ^ 53) <= q
       <= (Z.of_nat (i + 1) # Pos.of_nat N) + (1 # 2 ^ 53))%Q.
Proof.
  intros Hi.
  pose proof (quotient_fraction i N ltac:(lia)) as Hq.
  destruct (fraction_bounds i N Hi) as (Hlo & Hhi & _).
  assert (0 <= 1 # Pos.of_nat N)%Q as HN0 by done.
  destruct (round64_unit
              (inject_Z (1 + Z.of_nat i) / inject_Z (Z.of_nat N)))
    as (q & Hround & Hql & Hqh); [lra|lra|].
  exists q. split; [done|]. split; lra.
Qed.

(** The division succeeds there. *)
Lemma truediv_Return (i N : nat) s :
  i + 1 ≤ N →
  ∃ q,
    round64 (inject_Z (1 + Z.of_nat i) / inject_Z (Z.of_nat N)) = Finite q ∧
    truediv (1 + Z.of_nat i) (Z.of_nat N) s = (Return (Finite q), s).
Proof.
  intros Hi. destruct (quotient_rounded i N Hi) as (q & Hround & _).
  exists q. split; [done|].
  unfold truediv. rewrite decide_False by lia. by rewrite Hround.
Qed.

Lemma rig_follow_body_Return master num_orgs i mch s :
  i + 1 ≤ num_orgs →
  has_bone s mch →
  (q ← truediv (1 + Z.of_nat i) (Z.of_nat num_orgs);
   make_constraint mch "COPY_TRANSFORMS" master (float_sub (Finite 1) q)) s =
  (Return tt,
   add_constraint
     {| con_owner := mch; con_type := "COPY_TRANSFORMS";
        con_subtarget := master;
        con_influence := follow_influence i num_orgs |}
     s).
Proof.
  intros Hi Hb.
  destruct (truediv_Return i num_orgs s Hi) as (q & Hround & Hdiv).
  rewrite (bind_Return _ _ _ _ _ Hdiv).
  unfold follow_influence. rewrite Hround.
  by apply make_constraint_Return.
Qed.

(** The loop of [rig_follow_chain] adds one constraint per follow bone, in
    order, and divides by the number of original bones without error. *)
Lemma rig_follow_loop_Return master num_orgs follow : ∀ start s,
  start + length follow ≤ num_orgs →
  (∀ mch, mch ∈ follow → has_bone s mch) →
  for_each (enumerate_from start follow) (λ '(i, mch),
    q ← truediv (1 + Z.of_nat i) (Z.of_nat num_orgs);
    make_constraint mch "COPY_TRANSFORMS" master (float_sub (Finite 1) q)) s =
  (Return tt,
   foldl (λ s c, add_constraint c s) s
     ((λ '(i, mch),
        {| con_owner := mch; con_type := "COPY_TRANSFORMS";
           con_subtarget := master;
           con_influence := follow_influence i num_orgs |})
      <$> enumerate_from start follow)).
Proof.
  induction follow as [|mch follow IH]; intros start s HN Hbones; [done|].
  cbn [enumerate_from for_each fmap list_fmap foldl].
  cbn [length] in HN.
  rewrite (bind_Return _ _ _ _ _
             (rig_follow_body_Return master num_orgs start mch s ltac:(lia)
                (Hbones mch ltac:(left)))).
  apply IH; [lia|]. intros m Hm. apply (Hbones m). by right.
Qed.

(** The influence on follow bone [i] of a chain of [N] bones, [N] at most
    [2^50]: a float within [2^-52] of [1 - (i+1)/N]. *)
Lemma follow_influence_bounds (i N : nat) :
  i + 1 < N → (Z.of_nat N ≤ 2 ^ 50)%Z →
  ∃ w, follow_influence i N = Finite w ∧
    (1 - (Z.of_nat (i + 1) # Pos.of_nat N) - (1 # 2 ^ 52) <= w
       <= 1 - (Z.of_nat (i + 1) # Pos.of_nat N) + (1 # 2 ^ 52))%Q.
Proof.
  intros Hi Hmax.
  destruct (quotient_rounded i N ltac:(lia)) as (q & Hround & Hql & Hqh).
  destruct (fraction_bounds i N ltac:(lia)) as (Hlo & _ & Hhi).
  specialize (Hhi Hi).
  pose proof (inverse_bound N ltac:(lia) Hmax) as Hinv.
  assert ((1 # 2 ^ 50) == 8 * (1 # 2 ^ 53))%Q as H50 by reflexivity.
  assert ((1 # 2 ^ 52) == 2 * (1 # 2 ^ 53))%Q as H52 by reflexivity.
  assert (0 < 1 # 2 ^ 53)%Q as H53 by reflexivity.
  destruct (round64_unit (1 - q)) as (w & Hw & Hwl & Hwh); [lra|lra|].
  exists w. split; [|split; lra].
  unfold follow_influence. rewrite Hround. exact Hw.
Qed.

Lemma getattr_Return {A} name (field : Rig → option A) s a :
  field (self s) = Some a → getattr name field s = (Return a, s).
Proof.
  intros Hf. unfold getattr, mbind, M_bind, gets. simpl. by rewrite Hf.
Qed.

Lemma follow_constraint_lookup master N follow i c :
  ((λ '(i, mch),
     {| con_owner := mch; con_type := "COPY_TRANSFORMS";
        con_subtarget := master;
        con_influence := follow_influence i N |})
   <$> enumerate_from 0 follow) !! i = Some c →
  ∃ mch, follow !! i = Some mch ∧
    c = {| con_owner := mch; con_type := "COPY_TRANSFORMS";
           con_subtarget := master;
           con_influence := follow_influence i N |}.
Proof.
  rewrite list_lookup_fmap, lookup_enumerate_from.
  destruct (follow !! i) as [mch|]; simpl; [|done].
  intros [= <-]. by exists mch.
Qed.

(** What [make_follow_chain] leaves for [rig_follow_chain]: a follow chain
    of [N-1] bones that are in the armature. *)
Lemma make_follow_chain_establishes s :
  (∀ org, org ∈ bones_org (self s) → has_bone s org) →
  has_bone s (base_bone (self s)) →
  ∃ follow s',
    make_follow_chain s = (Return tt, s') ∧
    bones_mch_follow (self s') = Some follow ∧
    length follow = length (bones_org (self s')) - 1 ∧
    (∀ mch, mch ∈ follow → has_bone s' mch) ∧
    bones_ctrl_master (self s') = bones_ctrl_master (self s).
Proof.
  intros Horg Hbase.
  destruct (make_follow_bones_Return (drop 1 (bones_org (self s))) 1 s)
    as (follow & eb & Hrun & Hkeys & Hlen & _); [|done|].
  { intros o Ho. apply Horg. by apply (subseteq_drop 1). }
  rewrite length_drop in Hlen.
  exists follow, (set_self (with_mch_follow follow (self s)) (set_edit_bones eb s)).
  split; [|split; [done|split; [done|split; [|done]]]].
  - unfold make_follow_chain, mbind at 1, M_bind at 1, gets at 1. simpl.
    by rewrite (bind_Return _ _ _ _ _ Hrun).
  - intros mch Hmch. unfold has_bone, bone_names. simpl. rewrite Hkeys.
    apply elem_of_app. by right.
Qed.

(** C1: for a chain of [N >= 3] original bones whose [N-1] follow bones are
    in the armature, [rig_follow_chain] puts one copy-transforms constraint
    targeting the master control on each follow bone. The influence on
    follow bone [i] (from 0 to [N-2]) is the float that Python computes for
    [1-(1+i)/N], the quotient rounded and then the difference rounded: a
    float within [2^-52] of [1 - (i+1)/N]. Up to [2^50] bones the
    influences decrease strictly with [i]; the one on follow bone 0 is the
    largest and is below 1; the one on follow bone [N-2] is within [2^-52]
    of [1/N]; all are above 0. For [N = 3] the two influences are the
    floats [3002399751580331 / 2^52] and [3002399751580331 / 2^53], which
    Python prints as 0.6666666666666667 and 0.33333333333333337. *)
Theorem rig_follow_chain_influence s master follow :
  let N := length (bones_org (self s)) in
  3 ≤ N →
  (Z.of_nat N ≤ 2 ^ 50)%Z →
  bones_ctrl_master (self s) = Some master →
  bones_mch_follow (self s) = Some follow →
  length follow = N - 1 →
  (∀ mch, mch ∈ follow → has_bone s mch) →
  ∃ s' cs,
    rig_follow_chain s = (Return tt, s') ∧
    constraints (obj s') = constraints (obj s) ++ cs ∧
    length cs = N - 1 ∧
    (∀ i mch, follow !! i = Some mch →
       ∃ c w, cs !! i = Some c ∧
         con_owner c = mch ∧
         con_type c = "COPY_TRANSFORMS" ∧
         con_subtarget c = master ∧
         con_influence c = follow_influence i N ∧
         con_influence c = Finite w ∧
         (1 - (Z.of_nat (i + 1) # Pos.of_nat N) - (1 # 2 ^ 52) <= w
            <= 1 - (Z.of_nat (i + 1) # Pos.of_nat N) + (1 # 2 ^ 52))%Q) ∧
    (∀ i j ci cj, i < j → cs !! i = Some ci → cs !! j = Some cj →
       float_lt (con_influence cj) (con_influence ci)) ∧
    (∀ i c0 c, cs !! 0 = Some c0 → cs !! i = Some c →
       float_le (con_influence c) (con_influence c0) ∧
       float_lt (con_influence c0) (Finite 1)) ∧
    (∀ c, cs !! (N - 2) = Some c →
       ∃ w, con_influence c = Finite w ∧
         ((1 # Pos.of_nat N) - (1 # 2 ^ 52) <= w
            <= (1 # Pos.of_nat N) + (1 # 2 ^ 52))%Q) ∧
    (∀ i c, cs !! i = Some c → float_lt (Finite 0) (con_influence c)) ∧
    (N = 3 →
     Forall2 float_eq (con_influence <$> cs)
       [ Finite (3002399751580331 # 2 ^ 52);
         Finite (3002399751580331 # 2 ^ 53) ]) ∧
    edit_bones (obj s') = edit_bones (obj s) ∧
    self s' = self s ∧
    report s' = report s.
Proof.
  intros N HN Hmax Hmaster Hfollow Hlen Hbones.
  set (cs := (λ '(i, mch),
     {| con_owner := mch; con_type := "COPY_TRANSFORMS";
        con_subtarget := master;
        con_influence := follow_influence i N |})
   <$> enumerate_from 0 follow).
  assert (length cs = N - 1) as Hcs_len.
  { unfold cs. by rewrite length_fmap, length_enumerate_from. }
  assert (∀ i c, cs !! i = Some c →
            i < N - 1 ∧
            ∃ w, con_influence c = Finite w ∧
              (1 - (Z.of_nat (i + 1) # Pos.of_nat N) - (1 # 2 ^ 52) <= w
                 <= 1 - (Z.of_nat (i + 1) # Pos.of_nat N) + (1 # 2 ^ 52))%Q)
    as Hval.
  { intros i c Hc.
    assert (i < N - 1) as Hi.
    { rewrite <- Hcs_len. by apply lookup_lt_Some in Hc. }
    split; [done|].
    apply follow_constraint_lookup in Hc as (mch & _ & ->). simpl.
    apply follow_influence_bounds; [lia|done]. }
  pose proof (inverse_bound N ltac:(lia) Hmax) as Hinv.
  assert ((1 # 2 ^ 50) == 4 * (1 # 2 ^ 52))%Q as H50 by reflexivity.
  assert (0 < 1 # 2 ^ 52)%Q as H52 by reflexivity.
  destruct (foldl_add_constraint cs s) as (Hcons & Hbones' & Hself & Hreport).
  exists (foldl (λ s c, add_constraint c s) s cs), cs.
  split; [|split; [done|split; [done|split; [|split; [|split; [|split;
    [|split; [|split; [|done]]]]]]]]].
  - unfold rig_follow_chain.
    rewrite (bind_Return _ _ _ _ _ (getattr_Return "master" _ s master Hmaster)).
    unfold mbind at 1, M_bind at 1, gets at 1. cbn [compose].
    rewrite (bind_Return _ _ _ _ _ (getattr_Return "follow" _ s follow Hfollow)).
    apply (rig_follow_loop_Return master N follow 0 s); [lia|done].
  - intros i mch Hi.
    assert (cs !! i =
            Some {| con_owner := mch; con_type := "COPY_TRANSFORMS";
                    con_subtarget := master;
                    con_influence := follow_influence i N |}) as Hc.
    { unfold cs. by rewrite list_lookup_fmap, lookup_enumerate_from, Hi. }
    destruct (Hval _ _ Hc) as (_ & w & Hw & Hbound).
    eexists _, w. split; [exact Hc|].
    split; [done|split; [done|split; [done|split; [done|]]]].
    split; [exact Hw|exact Hbound].
  - intros i j ci cj Hij (Hi & wi & -> & Hil & Hih)%Hval
      (Hj & wj & -> & Hjl & Hjh)%Hval.
    pose proof (fraction_step i j N ltac:(lia) Hij) as Hstep.
    simpl. lra.
  - intros i c0 c Hc0 Hc.
    destruct (fraction_bounds 0 N ltac:(lia)) as (Hlo & _ & _).
    destruct i as [|i].
    + rewrite Hc0 in Hc. injection Hc as <-.
      apply Hval in Hc0 as (_ & w0 & -> & H0l & H0h).
      simpl. split; lra.
    + apply Hval in Hc0 as (_ & w0 & -> & H0l & H0h).
      apply Hval in Hc as (Hi & w & -> & Hl & Hh).
      pose proof (fraction_step 0 (S i) N ltac:(lia) ltac:(lia)) as Hstep.
      simpl. split; lra.
  - intros c (Hi & w & Hw & Hl & Hh)%Hval.
    pose proof (fraction_last N ltac:(lia)) as Hlast.
    exists w. split; [done|]. split; lra.
  - intros i c (Hi & w & -> & Hl & Hh)%Hval.
    destruct (fraction_bounds i N ltac:(lia)) as (_ & _ & Hhi).
    specialize (Hhi ltac:(lia)). simpl. lra.
  - intros HN3. unfold cs. rewrite HN3 in *.
    destruct follow as [|f1 [|f2 [|f3 follow]]]; try done.
    cbn [enumerate_from fmap list_fmap con_influence].
    apply List.Forall2_cons; [vm_compute; reflexivity|].
    apply List.Forall2_cons; [vm_compute; reflexivity|].
    apply List.Forall2_nil.
Qed.

(** *** The tweak chain *)

(** The loop of [parent_tweak_chain]: each tweak bone that has a
    counterpart in the list of parents gets it as parent, and only the
    tweak bones change. *)
Lemma parent_loop_Return tweak : ∀ parents s,
  NoDup tweak →
  (∀ t, t ∈ tweak → has_bone s t) →
  (∀ p, Some p ∈ parents → has_bone s p) →
  ∃ eb,
    for_each (zip tweak parents) (λ '(tweak, main),
      set_bone_parent tweak main) s = (Return tt, set_edit_bones eb s) ∧
    keys eb = bone_names s ∧
    (∀ k t p, tweak !! k = Some t → parents !! k = Some p →
       eb_parent <$> get t eb = Some p) ∧
    (∀ name, name ∉ tweak → get name eb = get name (edit_bones (obj s))).
Proof.
  induction tweak as [|t tweak IH]; intros parents s Hnd Htweak Hparents.
  { exists (edit_bones (obj s)). by rewrite set_edit_bones_id. }
  destruct parents as [|p parents].
  { exists (edit_bones (obj s)). by rewrite set_edit_bones_id. }
  apply NoDup_cons in Hnd as [Ht Hnd].
  destruct (has_bone_get s t (Htweak t ltac:(left))) as [b Hb].
  assert (∀ q, p = Some q → has_bone s q) as Hp.
  { intros q ->. apply Hparents. left. }
  pose proof (set_bone_parent_Return s t p b Hb Hp) as Hset.
  set (b' := {| eb_head := eb_head b; eb_tail := eb_tail b;
                eb_roll := eb_roll b; eb_parent := p;
                eb_use_connect := false |}) in Hset.
  set (s1 := set_edit_bones (set t b' (edit_bones (obj s))) s) in Hset.
  assert (bone_names s1 = bone_names s) as Hnames1.
  { unfold s1, bone_names. simpl. apply keys_set_in, (Htweak t). left. }
  destruct (IH parents s1 Hnd) as (eb & Hrun & Hkeys & Hpar & Hother).
  { intros t' Ht'. unfold has_bone. rewrite Hnames1. apply Htweak. by right. }
  { intros q Hq. unfold has_bone. rewrite Hnames1. apply Hparents. by right. }
  exists eb. split; [|split; [|split]].
  - cbn [zip_with for_each].
    by rewrite (bind_Return _ _ _ _ _ Hset).
  - by rewrite Hkeys.
  - intros [|k] t' p' Hk Hp'; simpl in *.
    + injection Hk as <-. injection Hp' as <-.
      rewrite (Hother t Ht). unfold s1. simpl. by rewrite get_set_eq.
    + by apply (Hpar k).
  - intros name [Hne Hname]%not_elem_of_cons.
    rewrite (Hother name Hname). unfold s1. simpl. by apply get_set_ne.
Qed.

(** C3: after [parent_tweak_chain], tweak bone 0 has the master control as
    parent, every tweak bone [k >= 1] has follow bone [k-1] as parent, and
    the tweak bone after those has the parent of the rig: the tweak chain is
    parented in order to [master, follow[0], follow[1], ..., root]. Bones
    outside the tweak chain keep their parents. The names in the tweak
    chain are distinct, as the names of bones in an armature are, and the
    bones involved are in the armature. *)
Theorem parent_tweak_chain_parents s master tweak follow :
  bones_ctrl_master (self s) = Some master →
  bones_ctrl_tweak (self s) = Some tweak →
  bones_mch_follow (self s) = Some follow →
  NoDup tweak →
  (∀ t, t ∈ tweak → has_bone s t) →
  has_bone s master →
  (∀ mch, mch ∈ follow → has_bone s mch) →
  (∀ root, rig_parent_bone (self s) = Some root → has_bone s root) →
  ∃ s',
    parent_tweak_chain s = (Return tt, s') ∧
    (∀ k t p, tweak !! k = Some t →
       ([Some master] ++ (Some <$> follow) ++ [rig_parent_bone (self s)]) !! k
         = Some p →
       bone_parent s' t = Some p) ∧
    (∀ t, tweak !! 0 = Some t → bone_parent s' t = Some (Some master)) ∧
    (∀ k t mch, 1 ≤ k → tweak !! k = Some t → follow !! (k - 1) = Some mch →
       bone_parent s' t = Some (Some mch)) ∧
    (∀ t, tweak !! S (length follow) = Some t →
       bone_parent s' t = Some (rig_parent_bone (self s))) ∧
    (∀ name, name ∉ tweak → bone_parent s' name = bone_parent s name) ∧
    bone_names s' = bone_names s ∧
    constraints (obj s') = constraints (obj s) ∧
    self s' = self s.
Proof.
  intros Hmaster Htweak Hfollow Hnd Htw Hm Hfl Hroot.
  set (parents := [Some master] ++ (Some <$> follow) ++
                  [rig_parent_bone (self s)]).
  destruct (parent_loop_Return tweak parents s Hnd Htw)
    as (eb & Hrun & Hkeys & Hpar & Hother).
  { intros p [Hp|[Hp|Hp]%elem_of_app]%elem_of_app.
    - apply list_elem_of_singleton in Hp. by injection Hp as ->.
    - apply list_elem_of_fmap in Hp as (mch & [= ->] & Hmch). by apply Hfl.
    - apply list_elem_of_singleton in Hp. by apply Hroot. }
  exists (set_edit_bones eb s).
  split; [|split; [|split; [|split; [|split; [|split; [|done]]]]]].
  - unfold parent_tweak_chain.
    rewrite (bind_Return _ _ _ _ _ (getattr_Return "master" _ s master Hmaster)).
    rewrite (bind_Return _ _ _ _ _ (getattr_Return "follow" _ s follow Hfollow)).
    unfold mbind at 1, M_bind at 1, gets at 1. cbn [compose].
    rewrite (bind_Return _ _ _ _ _ (getattr_Return "tweak" _ s tweak Htweak)).
    exact Hrun.
  - intros k t p Hk Hp. by apply (Hpar k).
  - intros t Ht. by apply (Hpar 0).
  - intros [|k] t mch Hk Ht Hmch; [lia|]. apply (Hpar (S k)); [done|].
    simpl in *. rewrite Nat.sub_0_r in Hmch.
    rewrite lookup_app_l by (rewrite length_fmap; by apply lookup_lt_Some in Hmch).
    by rewrite list_lookup_fmap, Hmch.
  - intros t Ht. apply (Hpar (S (length follow))); [done|].
    simpl. rewrite lookup_app_r by (by rewrite length_fmap).
    by rewrite length_fmap, Nat.sub_diag.
  - intros name Hname. unfold bone_parent. simpl. by rewrite Hother.
Qed.

End facts.

(** *** The theorems on the sample metarig *)

Import TongueSample.

Lemma sample_has_bones (s : State) (names : list string) :
  bool_decide (Forall (λ name, name ∈ bone_names s) names) = true →
  ∀ name, name ∈ names → has_bone s name.
Proof.
  intros Hall%bool_decide_eq_true_1 name Hname.
  by apply (proj1 (Forall_forall _ _) Hall).
Qed.

(** C4 on the sample with a chain of two bones. *)
Lemma build_rig_chain_too_short_witness :
  length (bones_org (self short_state)) < 3 ∧
  ∃ e s',
    build_rig short_state = (Raise e, s') ∧
    e = ConfigurationError (base_bone (self short_state)) 3 ∧
    report s' = report short_state ++ [e] ∧
    obj s' = obj short_state ∧
    bone_names s' = bone_names short_state ∧
    self s' = self short_state.
Proof.
  split; [simpl; lia|].
  apply (@build_rig_chain_too_short sample_env short_state). simpl. lia.
Defined.

(** C8 on the sample metarig, whose [bbones] parameter is 10. *)
Lemma bbones_parameter_witness :
  (∃ p,
     get "bbones" (add_parameters []) = Some p ∧
     property_min p = Some 1%Z ∧
     property_default p = Some 10%Z) ∧
  ∃ s',
    initialize sample_state = (Return tt, s') ∧
    bbone_segments (self s') = params_bbones (self sample_state) ∧
    params_bbones (self s') = params_bbones (self sample_state) ∧
    bones_org (self s') = bones_org (self sample_state) ∧
    obj s' = obj sample_state ∧
    report s' = report sample_state.
Proof.
  apply (@bbones_parameter sample_env [] sample_state).
  - intros p. by apply get_set_ne.
  - simpl. lia.
Defined.

(** C2 on the sample metarig: two follow bones for three original bones. *)
Lemma make_follow_chain_creates_witness :
  ∃ s',
    make_follow_chain sample_state = (Return tt, s') ∧
    bones_mch_follow (self s') = Some ["MCH-tongue.001"; "MCH-tongue.002"] ∧
    bone_names s' =
      bone_names sample_state ++ ["MCH-tongue.001"; "MCH-tongue.002"].
Proof.
  destruct (@make_follow_chain_creates sample_env sample_state)
    as (follow & s' & Hrun & Hfollow & _ & Hnames & _).
  - simpl. lia.
  - by apply sample_has_bones.
  - by apply (sample_has_bones sample_state ["ORG-tongue"]); [|left].
  - exists s'. split; [exact Hrun|].
    assert (s' = (make_follow_chain sample_state).2) as -> by by rewrite Hrun.
    split; reflexivity.
Defined.

(** C1 as stated fails. On the sample metarig, a chain of three bones, the
    influences that [rig_follow_chain] passes are not 2/3 and 1/3: they
    are floats, each the result of two roundings, and they are not the
    floats nearest to 2/3 and 1/3 either, but the next ones up. *)
Lemma rig_follow_chain_influence_rounded :
  ∃ s' c0 c1,
    length (bones_org (self generated_state)) = 3 ∧
    rig_follow_chain generated_state = (Return tt, s') ∧
    constraints (obj s') = [c0; c1] ∧
    con_owner c0 = "MCH-tongue.001" ∧
    con_owner c1 = "MCH-tongue.002" ∧
    ¬ float_eq (con_influence c0) (Finite (2 # 3)) ∧
    ¬ float_eq (con_influence c1) (Finite (1 # 3)) ∧
    ¬ float_eq (con_influence c0) (round64 (2 # 3)) ∧
    ¬ float_eq (con_influence c1) (round64 (1 # 3)) ∧
    float_lt (round64 (2 # 3)) (con_influence c0) ∧
    float_lt (round64 (1 # 3)) (con_influence c1).
Proof.
  exists (exec rig_follow_chain generated_state),
    {| con_owner := "MCH-tongue.001"; con_type := "COPY_TRANSFORMS";
       con_subtarget := "tongue"; con_influence := follow_influence 0 3 |},
    {| con_owner := "MCH-tongue.002"; con_type := "COPY_TRANSFORMS";
       con_subtarget := "tongue"; con_influence := follow_influence 1 3 |}.
  split; [vm_compute; reflexivity|].
  split; [vm_compute; reflexivity|].
  split; [vm_compute; reflexivity|].
  split; [reflexivity|]. split; [reflexivity|].
  split; [vm_compute; discriminate|].
  split; [vm_compute; discriminate|].
  split; [vm_compute; discriminate|].
  split; [vm_compute; discriminate|].
  split; vm_compute; reflexivity.
Qed.

(** C1, amended, on the sample metarig after bone generation: the
    influences on the two follow bones are the floats that Python prints
    as 0.6666666666666667 and 0.33333333333333337. *)
Lemma rig_follow_chain_influence_witness :
  ∃ s' cs,
    rig_follow_chain generated_state = (Return tt, s') ∧
    constraints (obj s') = constraints (obj generated_state) ++ cs ∧
    Forall2 float_eq (con_influence <$> cs)
      [ Finite (3002399751580331 # 2 ^ 52);
        Finite (3002399751580331 # 2 ^ 53) ].
Proof.
  destruct (rig_follow_chain_influence generated_state
              "tongue" ["MCH-tongue.001"; "MCH-tongue.002"])
    as (s' & cs & Hrun & Hcons & _ & _ & _ & _ & _ & _ & H3 & _).
  - vm_compute. lia.
  - vm_compute. discriminate.
  - vm_compute. reflexivity.
  - vm_compute. reflexivity.
  - vm_compute. reflexivity.
  - apply sample_has_bones. vm_compute. reflexivity.
  - exists s', cs. split; [exact Hrun|]. split; [exact Hcons|].
    apply H3. vm_compute. reflexivity.
Defined.

(** The rounding on some quotients, with the floats that Python returns
    for them: thirds and tenths, the smallest subnormal number, a tie
    below it that goes to zero and one that goes up, ties above [2^53]
    that go to the even neighbour, a large integer, and the overflow. *)
Example round64_samples :
  float_eq (round64 (1 # 3)) (Finite (6004799503160661 # 2 ^ 54)) ∧
  float_eq (round64 (2 # 3)) (Finite (6004799503160661 # 2 ^ 53)) ∧
  float_eq (round64 (1 # 10)) (Finite (3602879701896397 # 2 ^ 55)) ∧
  float_eq (round64 (7 # 10)) (Finite (3152519739159347 # 2 ^ 52)) ∧
  float_eq (round64 (1 # 2 ^ 1074)) (Finite (1 # 2 ^ 1074)) ∧
  float_eq (round64 (1 # 2 ^ 1075)) (Finite 0) ∧
  float_eq (round64 (3 # 2 ^ 1075)) (Finite (1 # 2 ^ 1073)) ∧
  float_eq (round64 (inject_Z (2 ^ 53 + 1))) (Finite (inject_Z (2 ^ 53))) ∧
  float_eq (round64 (inject_Z (2 ^ 53 + 3) / 2)) (Finite (inject_Z (2 ^ 52 + 2))) ∧
  float_eq (round64 (inject_Z (10 ^ 23)))
           (Finite (inject_Z 99999999999999991611392)) ∧
  float_eq (round64 (- (1 # 3))) (Finite (- (6004799503160661 # 2 ^ 54))) ∧
  round64 (inject_Z (2 ^ 1024 - 1)) = PosInf.
Proof.
  do 11 (apply conj; [vm_compute; reflexivity|]).
  vm_compute. reflexivity.
Qed.

(** The bound on the length of the chain is needed for the order of the
    influences: in a chain of [2^60] bones the floats would no longer
    separate them, the expression [1-(1+i)/N] being [1.0] both for [i = 0]
    and for [i = 1]. *)
Example follow_influence_huge_chain :
  float_eq (float_sub (Finite 1) (round64 (inject_Z (1 + 0) / inject_Z (2 ^ 60))))
           (Finite 1) ∧
  float_eq (float_sub (Finite 1) (round64 (inject_Z (1 + 1) / inject_Z (2 ^ 60))))
           (Finite 1).
Proof. split; vm_compute; reflexivity. Qed.

(** C3 on the sample metarig after bone generation: the four tweak bones
    are parented to the master, the two follow bones and the root. *)
Lemma parent_tweak_chain_parents_witness :
  ∃ s',
    parent_tweak_chain generated_state = (Return tt, s') ∧
    bone_parent s' "tweak_tongue" = Some (Some "tongue") ∧
    bone_parent s' "tweak_tongue.001" = Some (Some "MCH-tongue.001") ∧
    bone_parent s' "tweak_tongue.002" = Some (Some "MCH-tongue.002") ∧
    bone_parent s' "tweak_tongue.002.001" = Some (Some "root").
Proof.
  destruct (parent_tweak_chain_parents generated_state "tongue"
              ["tweak_tongue"; "tweak_tongue.001"; "tweak_tongue.002";
               "tweak_tongue.002.001"]
              ["MCH-tongue.001"; "MCH-tongue.002"])
    as (s' & Hrun & _ & H0 & Hk & Hlast & _).
  - vm_compute. reflexivity.
  - vm_compute. reflexivity.
  - vm_compute. reflexivity.
  - apply (bool_decide_unpack _). vm_compute. reflexivity.
  - apply sample_has_bones. vm_compute. reflexivity.
  - apply (sample_has_bones generated_state ["tongue"]); [|left].
    vm_compute. reflexivity.
  - apply sample_has_bones. vm_compute. reflexivity.
  - intros root Hroot.
    apply (sample_has_bones generated_state ["root"]).
    + vm_compute. reflexivity.
    + vm_compute in Hroot. injection Hroot as <-. left.
  - exists s'. split; [exact Hrun|]. split; [|split; [|split]].
    + apply H0. reflexivity.
    + apply (Hk 1 _ "MCH-tongue.001"); [lia|reflexivity|reflexivity].
    + apply (Hk 2 _ "MCH-tongue.002"); [lia|reflexivity|reflexivity].
    + rewrite Hlast with (t := "tweak_tongue.002.001"); [|reflexivity].
      vm_compute. reflexivity.
Defined.

(** The whole build on the sample metarig: the follow chain, the
    constraints, the parents and the segment setting at the end. *)
Example build_rig_sample :
  ∃ s',
    build_rig sample_state = (Return tt, s') ∧
    bones_ctrl_master (self s') = Some "tongue" ∧
    bones_mch_follow (self s') = Some ["MCH-tongue.001"; "MCH-tongue.002"] ∧
    constraints (obj s') =
      [ {| con_owner := "MCH-tongue.001"; con_type := "COPY_TRANSFORMS";
           con_subtarget := "tongue"; con_influence := follow_influence 0 3 |};
        {| con_owner := "MCH-tongue.002"; con_type := "COPY_TRANSFORMS";
           con_subtarget := "tongue"; con_influence := follow_influence 1 3 |} ] ∧
    (λ name, (name, bone_parent s' name)) <$> bone_names s' =
      [ ("root", Some None);
        ("ORG-tongue", Some (Some "root"));
        ("ORG-tongue.001", Some (Some "ORG-tongue"));
        ("ORG-tongue.002", Some (Some "ORG-tongue.001"));
        ("tongue", Some (Some "root"));
        ("tweak_tongue", Some (Some "tongue"));
        ("tweak_tongue.001", Some (Some "MCH-tongue.001"));
        ("tweak_tongue.002", Some (Some "MCH-tongue.002"));
        ("tweak_tongue.002.001", Some (Some "root"));
        ("MCH-tongue.001", Some (Some "root"));
        ("MCH-tongue.002", Some (Some "root")) ] ∧
    bbone_segments (self s') = 10%Z ∧
    report s' = [].
Proof.
  exists (exec build_rig sample_state).
  split; [|split; [|split; [|split; [|split; [|split]]]]];
    vm_compute; reflexivity.
Qed.

(** The follow bones of the sample lie on the base bone, turned over. *)
Example make_follow_chain_sample_position :
  (λ b, (eb_head b, eb_tail b)) <$>
    get "MCH-tongue.002" (edit_bones (obj (exec make_follow_chain sample_state)))
  = Some ((0, 161 # 10000, 74 # 10000)%Q, (0, 0, 0)%Q).
Proof. vm_compute. reflexivity. Qed.

End TongueFacts.

(** ** DXF flags *)

Module DxfFlagsFacts.
Import PyDict PyDictFacts DxfFlags.

Local Open Scope Z_scope.

(** A flag that is a single bit is set in a word when that bit is. *)
Lemma has_flag_bit value n :
  0 ≤ n → has_flag value (2 ^ n) = Z.testbit value n.
Proof.
  intros Hn. unfold has_flag.
  destruct (Z.testbit value n) eqn:Hbit.
  - apply negb_true_iff, Z.eqb_neq. intros H0.
    assert (Z.testbit (Z.land value (2 ^ n)) n = false) as Hf
      by (rewrite H0; apply Z.bits_0).
    rewrite Z.land_spec, Hbit, Z.pow2_bits_eqb, Z.eqb_refl in Hf; done.
  - apply negb_false_iff, Z.eqb_eq, Z.bits_inj'. intros m Hm.
    rewrite Z.land_spec, Z.bits_0, Z.pow2_bits_eqb by done.
    destruct (Z.eqb_spec n m) as [->|]; [by rewrite Hbit|].
    apply andb_false_r.
Qed.

Lemma testbit_combine (sel : list Z) n :
  Z.testbit (combine sel) n = true ↔ ∃ f, f ∈ sel ∧ Z.testbit f n = true.
Proof.
  induction sel as [|a sel IH]; simpl.
  - rewrite Z.bits_0. split; [done|]. by intros (f & ?%elem_of_nil & _).
  - rewrite Z.lor_spec, orb_true_iff, IH. split.
    + intros [Ha|(f & Hf & Hbit)].
      * exists a. split; [left|done].
      * exists f. split; [by right|done].
    + intros (f & [->|Hf]%elem_of_cons & Hbit); [by left|].
      right. by exists f.
Qed.

(** Reading a single-bit flag back from a combination of single-bit
    flags. *)
Lemma has_flag_combine (sel : list Z) flag :
  Forall (λ f, ∃ n, 0 ≤ n ∧ f = 2 ^ n) sel →
  (∃ n, 0 ≤ n ∧ flag = 2 ^ n) →
  has_flag (combine sel) flag = true ↔ flag ∈ sel.
Proof.
  intros Hsel (n & Hn & ->). rewrite has_flag_bit, testbit_combine by done.
  split.
  - intros (f & Hf & Hbit).
    destruct (proj1 (Forall_forall _ _) Hsel f Hf) as (m & Hm & ->).
    rewrite Z.pow2_bits_eqb in Hbit by done.
    by apply Z.eqb_eq in Hbit as ->.
  - intros Hin. exists (2 ^ n). split; [done|].
    by rewrite Z.pow2_bits_eqb, Z.eqb_refl.
Qed.

(** Every flag of every group is a single bit. *)
Lemma flag_groups_single_bit :
  Forall (Forall (λ f, ∃ n, 0 ≤ n ∧ f = 2 ^ n)) flag_groups.
Proof.
  unfold flag_groups, polyline_flags, vertex_flags, block_flags,
    lwpolyline_flags, spline_flags.
  repeat first
    [ apply Forall_nil_2
    | apply Forall_cons_2
    | match goal with |- ∃ n, _ ∧ ?f = _ => by exists (Z.log2 f) end ].
Qed.

(** X1: the flags of a group are independent bits: whatever flags of the group
    are combined with [|], testing the word with [&] finds a flag of the
    group exactly when it was among the combined ones. This holds for the
    polyline, vertex, block, lwpolyline and spline flags. *)
Theorem flag_group_round_trip (group sel : list Z) (flag : Z) :
  group ∈ flag_groups →
  sel ⊆ group →
  flag ∈ group →
  has_flag (combine sel) flag = true ↔ flag ∈ sel.
Proof.
  intros Hgroup Hsel Hflag.
  pose proof (proj1 (Forall_forall _ _) flag_groups_single_bit group Hgroup)
    as Hbits.
  apply has_flag_combine.
  - apply Forall_forall. intros f Hf.
    apply (proj1 (Forall_forall _ _) Hbits), Hsel, Hf.
  - by apply (proj1 (Forall_forall _ _) Hbits).
Qed.

(** A closed 3D polyline: the two flags are found, the polyface flag is
    not. *)
Lemma flag_group_round_trip_witness :
  has_flag (combine [POLYLINE_CLOSED; POLYLINE_3D_POLYLINE])
           POLYLINE_3D_POLYLINE = true ∧
  has_flag (combine [POLYLINE_CLOSED; POLYLINE_3D_POLYLINE])
           POLYLINE_POLYFACE = false.
Proof.
  assert (polyline_flags ∈ flag_groups) as Hgroup by left.
  assert ([POLYLINE_CLOSED; POLYLINE_3D_POLYLINE] ⊆ polyline_flags) as Hsel.
  { intros f Hf. apply (bool_decide_unpack _).
    apply elem_of_cons in Hf as [->|Hf]; [reflexivity|].
    apply list_elem_of_singleton in Hf as ->. reflexivity. }
  split.
  - apply (flag_group_round_trip polyline_flags _ POLYLINE_3D_POLYLINE
             Hgroup Hsel).
    + apply (bool_decide_unpack _). reflexivity.
    + apply (bool_decide_unpack _). reflexivity.
  - reflexivity.
Defined.

(** Distinct keys of a dictionary with distinct values have distinct
    values. *)
Lemma get_injective {K V} `{EqDecision K} (d : list (K * V)) k1 k2 v :
  NoDup d.*2 → get k1 d = Some v → get k2 d = Some v → k1 = k2.
Proof.
  intros Hnd H1%get_Some_elem_of H2%get_Some_elem_of.
  induction d as [|[k0 v0] d IH]; [by apply elem_of_nil in H1|].
  apply NoDup_cons in Hnd as [Hv0 Hnd].
  apply elem_of_cons in H1 as [E1|H1]; apply elem_of_cons in H2 as [E2|H2].
  - congruence.
  - injection E1 as -> ->. exfalso. apply Hv0.
    apply list_elem_of_fmap. by exists (k2, v0).
  - injection E2 as -> ->. exfalso. apply Hv0.
    apply list_elem_of_fmap. by exists (k1, v0).
  - by apply IH.
Qed.

(** X2: [VERTEX_FLAGS] and [POLYLINE_FLAGS] describe the same polyline types,
    in the same order; every entry is a combination of flags of its group,
    so the flags can be read back from it; and the type can be read back
    from the flag word, since no two types of a table share one. *)
Theorem polyline_type_tables :
  keys VERTEX_FLAGS = keys POLYLINE_FLAGS ∧
  (∀ type value, get type VERTEX_FLAGS = Some value →
     ∃ sel, sel ⊆ vertex_flags ∧ value = combine sel) ∧
  (∀ type value, get type POLYLINE_FLAGS = Some value →
     ∃ sel, sel ⊆ polyline_flags ∧ value = combine sel) ∧
  (∀ type1 type2 value,
     get type1 VERTEX_FLAGS = Some value →
     get type2 VERTEX_FLAGS = Some value → type1 = type2) ∧
  (∀ type1 type2 value,
     get type1 POLYLINE_FLAGS = Some value →
     get type2 POLYLINE_FLAGS = Some value → type1 = type2).
Proof.
  split; [reflexivity|]. split; [|split; [|split]].
  - intros type value Hg%get_Some_elem_of.
    assert (Forall (λ kv, ∃ sel, sel ⊆ vertex_flags ∧ kv.2 = combine sel)
              VERTEX_FLAGS) as Hall.
    { change VERTEX_FLAGS with
        [ ("polyline2d", 0); ("polyline3d", VTX_3D_POLYLINE_VERTEX);
          ("polymesh", VTX_3D_POLYGON_MESH_VERTEX);
          ("polyface",
           Z.lor VTX_3D_POLYGON_MESH_VERTEX VTX_3D_POLYFACE_MESH_VERTEX) ].
      repeat apply Forall_cons_2; [| | | |apply Forall_nil_2].
      - exists []. split; [|done]. apply (bool_decide_unpack _). reflexivity.
      - exists [VTX_3D_POLYLINE_VERTEX].
        split; [|done]. apply (bool_decide_unpack _). reflexivity.
      - exists [VTX_3D_POLYGON_MESH_VERTEX].
        split; [|done]. apply (bool_decide_unpack _). reflexivity.
      - exists [VTX_3D_POLYGON_MESH_VERTEX; VTX_3D_POLYFACE_MESH_VERTEX].
        split; [|done]. apply (bool_decide_unpack _). reflexivity. }
    apply (proj1 (Forall_forall _ _) Hall (type, value) Hg).
  - intros type value Hg%get_Some_elem_of.
    assert (Forall (λ kv, ∃ sel, sel ⊆ polyline_flags ∧ kv.2 = combine sel)
              POLYLINE_FLAGS) as Hall.
    { change POLYLINE_FLAGS with
        [ ("polyline2d", 0); ("polyline3d", POLYLINE_3D_POLYLINE);
          ("polymesh", POLYLINE_3D_POLYMESH);
          ("polyface", POLYLINE_POLYFACE) ].
      repeat apply Forall_cons_2; [| | | |apply Forall_nil_2].
      - exists []. split; [|done]. apply (bool_decide_unpack _). reflexivity.
      - exists [POLYLINE_3D_POLYLINE].
        split; [|done]. apply (bool_decide_unpack _). reflexivity.
      - exists [POLYLINE_3D_POLYMESH].
        split; [|done]. apply (bool_decide_unpack _). reflexivity.
      - exists [POLYLINE_POLYFACE].
        split; [|done]. apply (bool_decide_unpack _). reflexivity. }
    apply (proj1 (Forall_forall _ _) Hall (type, value) Hg).
  - intros type1 type2 value. apply get_injective.
    apply (bool_decide_unpack _). reflexivity.
  - intros type1 type2 value. apply get_injective.
    apply (bool_decide_unpack _). reflexivity.
Qed.

End DxfFlagsFacts.

(** ** Sheen material extension: the shape of the record *)

Module SheenMoreFacts.
Import PyDict PyDictFacts Sheen.

(** All the ways through the two steps of the export. *)
Ltac sheen_cases :=
  unfold export_sheen_color, export_sheen_roughness;
  repeat match goal with
    | |- context [if ?b then _ else _] => destruct b eqn:?
    | |- context [match ?x with Some _ => _ | None => _ end] =>
        destruct x eqn:?
    | |- context [match ?x with pair _ _ => _ end] => destruct x as [[? ?] ?]
    end.

Ltac sublist_concrete :=
  repeat first [apply sublist_nil | apply sublist_skip | apply sublist_cons].

Section facts.
Context `{Host}.
Implicit Types (s : Socket) (es : ExportSettings)
  (st : list (string * ext_value) * list (string * UVMapInfo)).

(** The factor and texture of colour do not depend on the roughness
    socket. *)
Lemma export_sheen_color_entries sc sr es k :
  k = "sheenColorFactor" ∨ k = "sheenColorTexture" →
  get k (export_sheen_roughness sr es (export_sheen_color sc es ([], []))).1
    = get k (export_sheen_color sc es ([], [])).1 ∧
  get k (export_sheen_roughness sr es (export_sheen_color sc es ([], []))).2
    = get k (export_sheen_color sc es ([], [])).2.
Proof.
  intros [-> | ->]; (split;
    [by apply SheenFacts.export_sheen_roughness_keeps
    |by apply SheenFacts.export_sheen_roughness_keeps_uv]).
Qed.

Lemma export_sheen_color_keeps_uv k s es st :
  k ≠ "sheenColorTexture" →
  get k (export_sheen_color s es st).2 = get k st.2.
Proof.
  intros Ht. destruct st as [ext uv]. unfold export_sheen_color.
  destruct (non_linked s).
  - by destruct (seq_ne _ _).
  - destruct (has_image_node_from_socket s); [|done].
    destruct (gather_texture_info _ _ _ _) as [[tex uvi] ?]. simpl.
    by rewrite get_set_ne.
Qed.

(** The roughness step writes its entries the same way whatever the
    dictionaries it starts from hold under other keys. *)
Lemma export_sheen_roughness_own sr es st k :
  k = "sheenRoughnessFactor" ∨ k = "sheenRoughnessTexture" →
  get "sheenRoughnessFactor" st.1 = None →
  get "sheenRoughnessTexture" st.1 = None →
  get "sheenRoughnessFactor" st.2 = None →
  get "sheenRoughnessTexture" st.2 = None →
  get k (export_sheen_roughness sr es st).1
    = get k (export_sheen_roughness sr es ([], [])).1 ∧
  get k (export_sheen_roughness sr es st).2
    = get k (export_sheen_roughness sr es ([], [])).2.
Proof.
  intros Hk Hf Ht Hu Hv. destruct st as [ext uv].
  cbn [fst snd] in Hf, Ht, Hu, Hv.
  unfold export_sheen_roughness.
  destruct (non_linked sr).
  - destruct (float_ne _ _), Hk as [-> | ->]; cbn [fst snd];
      rewrite ?get_set_eq, ?get_set_ne, ?Hf, ?Ht, ?Hu, ?Hv by done; done.
  - destruct (get_factor_from_socket_VALUE sr) as [fac|];
      destruct (float_ne _ _);
      (destruct (has_image_node_from_socket sr);
       [destruct (gather_texture_info _ _ _ _) as [[tex uvi] ?]|]);
      destruct Hk as [-> | ->]; cbn [fst snd];
      repeat (rewrite get_set_eq || rewrite get_set_ne by done);
      rewrite ?Hf, ?Ht, ?Hu, ?Hv; done.
Qed.

(** The factor and texture of roughness do not depend on the colour
    socket. *)
Lemma export_sheen_roughness_entries sc sr es k :
  k = "sheenRoughnessFactor" ∨ k = "sheenRoughnessTexture" →
  get k (export_sheen_roughness sr es (export_sheen_color sc es ([], []))).1
    = get k (export_sheen_roughness sr es ([], [])).1 ∧
  get k (export_sheen_roughness sr es (export_sheen_color sc es ([], []))).2
    = get k (export_sheen_roughness sr es ([], [])).2.
Proof.
  intros Hk. apply export_sheen_roughness_own; [done| | | |].
  - by rewrite SheenFacts.export_sheen_color_keeps.
  - by rewrite SheenFacts.export_sheen_color_keeps.
  - by rewrite export_sheen_color_keeps_uv.
  - by rewrite export_sheen_color_keeps_uv.
Qed.

(** X3: when both sockets are unlinked node sockets left at their defaults,
    black and 0.0, the export still returns the extension: a
    [KHR_materials_sheen] record without any entry, not [None]. *)
Theorem export_sheen_defaults_empty m es sc sr :
  get_socket m "sheenColor" = Some sc →
  get_socket m "sheenRoughness" = Some sr →
  isinstance_NodeSocket sc = true → is_linked sc = false →
  isinstance_NodeSocket sr = true → is_linked sr = false →
  seq_ne (take 3 (default_value_array sc)) black = false →
  float_ne (default_value_float sr) float_0 = false →
  export_sheen m es =
    (Some {| ext_name := "KHR_materials_sheen";
             ext_extension := [];
             ext_required := false |}, []).
Proof.
  intros Hc Hr Hnc Hlc Hnr Hlr Hblack Hzero.
  rewrite (SheenFacts.export_sheen_both m es sc sr Hc Hr).
  unfold export_sheen_color, export_sheen_roughness, non_linked.
  by rewrite Hnc, Hlc, Hnr, Hlr, Hblack, Hzero.
Qed.

(** X4: the keys of the extension record are taken from
    [sheenColorFactor, sheenColorTexture, sheenRoughnessFactor,
    sheenRoughnessTexture], each at most once and always in this order;
    those of the auxiliary mapping from
    [sheenColorTexture, sheenRoughnessTexture]. No other key is written. *)
Theorem export_sheen_keys m es :
  keys (default [] (sheen_dict (export_sheen m es))) `sublist_of`
    [ "sheenColorFactor"; "sheenColorTexture";
      "sheenRoughnessFactor"; "sheenRoughnessTexture" ] ∧
  keys (export_sheen m es).2 `sublist_of`
    [ "sheenColorTexture"; "sheenRoughnessTexture" ].
Proof.
  unfold export_sheen, sheen_dict.
  destruct (get_socket m "sheenColor") as [sc|];
    [|split; apply sublist_nil_l].
  destruct (get_socket m "sheenRoughness") as [sr|];
    [|split; apply sublist_nil_l].
  sheen_cases; vm_compute; split; sublist_concrete.
Qed.

(** The texture of a step, from nothing. *)
Lemma export_sheen_color_texture sc es :
  (is_Some (get "sheenColorTexture" (export_sheen_color sc es ([], [])).1) ↔
   non_linked sc = false ∧ has_image_node_from_socket sc = true) ∧
  (is_Some (get "sheenColorTexture" (export_sheen_color sc es ([], [])).2) ↔
   non_linked sc = false ∧ has_image_node_from_socket sc = true).
Proof.
  unfold export_sheen_color. destruct (non_linked sc).
  - destruct (seq_ne _ _); simpl;
      (split; (split; [by intros [? ?]|by intros [? ?]])).
  - destruct (has_image_node_from_socket sc).
    + destruct (gather_texture_info _ _ _ _) as [[tex uvi] ?]. simpl.
      rewrite get_set_eq. split; (split; [done|by eauto]).
    + destruct (seq_ne _ _); simpl;
        (split; (split; [by intros [? ?]|by intros [? ?]])).
Qed.

Lemma export_sheen_roughness_texture sr es :
  (is_Some (get "sheenRoughnessTexture"
              (export_sheen_roughness sr es ([], [])).1) ↔
   non_linked sr = false ∧ has_image_node_from_socket sr = true) ∧
  (is_Some (get "sheenRoughnessTexture"
              (export_sheen_roughness sr es ([], [])).2) ↔
   non_linked sr = false ∧ has_image_node_from_socket sr = true).
Proof.
  unfold export_sheen_roughness. destruct (non_linked sr).
  - destruct (float_ne _ _); simpl;
      (split; (split; [by intros [? ?]|by intros [? ?]])).
  - destruct (has_image_node_from_socket sr).
    + destruct (gather_texture_info _ _ _ _) as [[tex uvi] ?]. simpl.
      rewrite get_set_eq. split; (split; [done|by eauto]).
    + destruct (float_ne _ _); simpl;
        (split; (split; [by intros [? ?]|by intros [? ?]])).
Qed.

(** X5: a texture is recorded for a socket exactly when the socket is not an
    unlinked node socket and has an image node upstream, and its uvmap
    information is in the auxiliary mapping exactly then. An unlinked node
    socket never gets a texture. *)
Theorem export_sheen_texture_iff m es sc sr :
  get_socket m "sheenColor" = Some sc →
  get_socket m "sheenRoughness" = Some sr →
  ∃ ext uv, export_sheen m es = (Some ext, uv) ∧
    (is_Some (get "sheenColorTexture" (ext_extension ext)) ↔
     non_linked sc = false ∧ has_image_node_from_socket sc = true) ∧
    (is_Some (get "sheenColorTexture" uv) ↔
     non_linked sc = false ∧ has_image_node_from_socket sc = true) ∧
    (is_Some (get "sheenRoughnessTexture" (ext_extension ext)) ↔
     non_linked sr = false ∧ has_image_node_from_socket sr = true) ∧
    (is_Some (get "sheenRoughnessTexture" uv) ↔
     non_linked sr = false ∧ has_image_node_from_socket sr = true).
Proof.
  intros Hc Hr. rewrite (SheenFacts.export_sheen_both m es sc sr Hc Hr).
  eexists _, _. split; [reflexivity|]. cbn [ext_extension]. cbv zeta.
  destruct (export_sheen_color_entries sc sr es "sheenColorTexture")
    as [-> ->]; [by right|].
  destruct (export_sheen_roughness_entries sc sr es "sheenRoughnessTexture")
    as [-> ->]; [by right|].
  destruct (export_sheen_color_texture sc es) as [? ?].
  destruct (export_sheen_roughness_texture sr es) as [? ?].
  done.
Qed.

(** X6: the colour entries of the result depend on the colour socket alone, and
    the roughness entries on the roughness socket alone: two materials
    that have both sockets and share one of them get the same entries for
    it, in the extension record and in the auxiliary mapping. *)
Theorem export_sheen_independent m1 m2 es sc1 sr1 sc2 sr2 :
  get_socket m1 "sheenColor" = Some sc1 →
  get_socket m1 "sheenRoughness" = Some sr1 →
  get_socket m2 "sheenColor" = Some sc2 →
  get_socket m2 "sheenRoughness" = Some sr2 →
  (sc1 = sc2 →
   ∀ k, k = "sheenColorFactor" ∨ k = "sheenColorTexture" →
     (sheen_dict (export_sheen m1 es) ≫= get k)
       = (sheen_dict (export_sheen m2 es) ≫= get k) ∧
     get k (export_sheen m1 es).2 = get k (export_sheen m2 es).2) ∧
  (sr1 = sr2 →
   ∀ k, k = "sheenRoughnessFactor" ∨ k = "sheenRoughnessTexture" →
     (sheen_dict (export_sheen m1 es) ≫= get k)
       = (sheen_dict (export_sheen m2 es) ≫= get k) ∧
     get k (export_sheen m1 es).2 = get k (export_sheen m2 es).2).
Proof.
  intros Hc1 Hr1 Hc2 Hr2.
  rewrite (SheenFacts.export_sheen_both m1 es sc1 sr1 Hc1 Hr1).
  rewrite (SheenFacts.export_sheen_both m2 es sc2 sr2 Hc2 Hr2).
  unfold sheen_dict. cbn [fst snd fmap option_fmap option_map ext_extension
                          mbind option_bind].
  split.
  - intros <- k Hk.
    destruct (export_sheen_color_entries sc1 sr1 es k Hk) as [-> ->].
    by destruct (export_sheen_color_entries sc1 sr2 es k Hk) as [-> ->].
  - intros <- k Hk.
    destruct (export_sheen_roughness_entries sc1 sr1 es k Hk) as [-> ->].
    by destruct (export_sheen_roughness_entries sc2 sr1 es k Hk) as [-> ->].
Qed.

End facts.

Import SheenMore.

(** The export of a material whose two sockets are at their defaults. *)
Lemma export_sheen_defaults_empty_witness :
  export_sheen mat_defaults tt =
    (Some {| ext_name := "KHR_materials_sheen";
             ext_extension := [];
             ext_required := false |}, []).
Proof.
  apply (@export_sheen_defaults_empty sample_host mat_defaults tt
           default_color default_roughness); reflexivity.
Defined.

(** The colour texture of the material fed by an image is recorded, and no
    roughness texture. *)
Lemma export_sheen_texture_iff_witness :
  ∃ ext uv, export_sheen mat_image_color tt = (Some ext, uv) ∧
    is_Some (get "sheenColorTexture" (ext_extension ext)) ∧
    is_Some (get "sheenColorTexture" uv) ∧
    ¬ is_Some (get "sheenRoughnessTexture" (ext_extension ext)).
Proof.
  destruct (@export_sheen_texture_iff sample_host mat_image_color tt
              image_color default_roughness eq_refl eq_refl)
    as (ext & uv & Hex & Hct & Hcu & Hrt & _).
  exists ext, uv. split; [exact Hex|]. split; [|split].
  - apply Hct. split; reflexivity.
  - apply Hcu. split; reflexivity.
  - intros [Hnl _]%Hrt. discriminate Hnl.
Defined.

(** Two materials with the same colour socket and different roughness
    sockets have the same colour entries. *)
Lemma export_sheen_independent_witness :
  (sheen_dict (export_sheen mat_image_color tt) ≫= get "sheenColorTexture")
    = (sheen_dict (export_sheen mat_image_color_rough tt)
         ≫= get "sheenColorTexture") ∧
  get "sheenColorTexture" (export_sheen mat_image_color tt).2
    = get "sheenColorTexture" (export_sheen mat_image_color_rough tt).2.
Proof.
  apply (proj1 (@export_sheen_independent sample_host
                  mat_image_color mat_image_color_rough tt
                  image_color default_roughness image_color unlinked_roughness
                  eq_refl eq_refl eq_refl eq_refl) eq_refl).
  by right.
Defined.

End SheenMoreFacts.

(** ** The tongue rig: bones, parents and compositions *)

Module TongueMoreFacts.
Import PyDict PyDictFacts Tongue TongueMore TongueFacts.

Section dict.
Context {K V : Type} `{EqDecision K}.
Implicit Types (k : K) (v : V) (d : list (K * V)).

Lemma get_app_l k d d' : k ∈ keys d → get k (d ++ d') = get k d.
Proof.
  unfold keys. induction d as [|[k' v'] d IH]; simpl.
  - by intros ?%elem_of_nil.
  - destruct (decide (k' = k)) as [->|Hne]; [done|].
    intros [?|Hin]%elem_of_cons; [done|]. by apply IH.
Qed.

Lemma get_app_r k d d' : k ∉ keys d → get k (d ++ d') = get k d'.
Proof.
  unfold keys. induction d as [|[k' v'] d IH]; simpl; [done|].
  intros [Hne Hin]%not_elem_of_cons. rewrite decide_False by done.
  by apply IH.
Qed.

Lemma set_app_r k v d d' : k ∉ keys d → set k v (d ++ d') = d ++ set k v d'.
Proof.
  unfold keys. induction d as [|[k' v'] d IH]; simpl; [done|].
  intros [Hne Hin]%not_elem_of_cons. rewrite decide_False by done.
  f_equal. by apply IH.
Qed.

Lemma get_not_key k d : k ∉ keys d → get k d = None.
Proof.
  intros Hk. destruct (get k d) as [v|] eqn:Hg; [|done].
  exfalso. apply Hk, get_is_Some. by eexists.
Qed.

End dict.

Section facts.
Context `{Env}.
Implicit Types (s : State) (eb : list (string * EditBone)).

(** *** The bone utilities, with the bones they leave *)

Lemma copy_bone_exact s bone_name assign_name parent b :
  get bone_name (edit_bones (obj s)) = Some b →
  copy_bone bone_name assign_name parent s =
    (Return (new_bone_name (bone_names s)
               (requested_name bone_name assign_name)),
     set_edit_bones
       (edit_bones (obj s) ++
        [(new_bone_name (bone_names s) (requested_name bone_name assign_name),
          {| eb_head := eb_head b; eb_tail := eb_tail b; eb_roll := eb_roll b;
             eb_parent := if parent then eb_parent b else None;
             eb_use_connect :=
               if parent then eb_use_connect b else false |})]) s).
Proof.
  intros Hg. unfold copy_bone, mbind, M_bind, gets, modify. simpl.
  by rewrite Hg.
Qed.

Lemma flip_bone_exact s name b :
  get name (edit_bones (obj s)) = Some b →
  flip_bone name s =
    (Return tt, set_edit_bones (set name (flipped b) (edit_bones (obj s))) s).
Proof.
  intros Hg. unfold flip_bone, mbind, M_bind, gets, modify. simpl.
  by rewrite Hg.
Qed.

Lemma copy_bone_position_exact s name target b1 b2 :
  get name (edit_bones (obj s)) = Some b1 →
  get target (edit_bones (obj s)) = Some b2 →
  copy_bone_position name target s =
    (Return tt,
     set_edit_bones
       (set target
          {| eb_head := eb_head b1; eb_tail := eb_tail b1;
             eb_roll := eb_roll b1; eb_parent := eb_parent b2;
             eb_use_connect := eb_use_connect b2 |}
          (edit_bones (obj s))) s).
Proof.
  intros Hg1 Hg2. unfold copy_bone_position.
  rewrite (bind_Return _ _ _ _ _ (edit_bone_Return s name b1 Hg1)).
  by rewrite (bind_Return _ _ _ _ _ (edit_bone_Return s target b2 Hg2)).
Qed.

(** *** The master control *)

Lemma org_0_Return s org0 rest :
  bones_org (self s) = org0 :: rest → org_0 s = (Return org0, s).
Proof.
  intros Horg. unfold org_0, mbind, M_bind, gets. simpl. by rewrite Horg.
Qed.

Lemma make_control_chain_exact s org0 rest b :
  bones_org (self s) = org0 :: rest →
  get org0 (edit_bones (obj s)) = Some b →
  master_name (bone_names s) org0 ∉ bone_names s →
  make_control_chain s =
    (Return tt,
     set_self (with_ctrl_master (master_name (bone_names s) org0) (self s))
       (set_edit_bones
          (edit_bones (obj s) ++
           [(master_name (bone_names s) org0, flipped b)]) s)).
Proof.
  intros Horg Hb Hfresh. unfold make_control_chain.
  rewrite (bind_Return _ _ _ _ _ (org_0_Return s org0 rest Horg)).
  rewrite (bind_Return _ _ _ _ _
             (copy_bone_exact s org0 (make_derived_name org0 "ctrl") true b Hb)).
  fold (master_name (bone_names s) org0).
  set (name := master_name (bone_names s) org0) in *.
  match goal with
  | |- context [set_edit_bones (_ ++ [(name, ?c)]) s] => set (copy := c)
  end.
  assert (get name (edit_bones (obj s) ++ [(name, copy)]) = Some copy) as Hg.
  { rewrite get_app_r by done. simpl. by rewrite decide_True. }
  rewrite (bind_Return _ _ _ _ _
             (flip_bone_exact
                (set_edit_bones (edit_bones (obj s) ++ [(name, copy)]) s)
                name copy Hg)).
  unfold modify. simpl. rewrite set_app_r by done. simpl.
  by rewrite decide_True.
Qed.


(** *** The follow chain, bone by bone *)

Lemma length_follow_names (l : list string) : ∀ taken,
  length (follow_names taken l) = length l.
Proof. induction l as [|org l IH]; intros taken; simpl; auto. Qed.

Lemma follow_names_unique (l : list string) : ∀ taken names,
  length names = length l →
  (∀ k org, l !! k = Some org →
     names !! k =
       Some (new_bone_name (taken ++ take k names)
               (requested_name org (make_derived_name org "mch")))) →
  names = follow_names taken l.
Proof.
  induction l as [|org l IH]; intros taken names Hlen Hnth.
  - by destruct names.
  - destruct names as [|name names]; [done|]. simpl in Hlen.
    pose proof (Hnth 0 org eq_refl) as H0. simpl in H0.
    rewrite app_nil_r in H0. injection H0 as ->. simpl. f_equal.
    apply IH; [lia|]. intros k o Hk.
    pose proof (Hnth (S k) o Hk) as HS. simpl in HS.
    by rewrite <- app_assoc.
Qed.

Lemma get_fmap_const (names : list string) (b : EditBone) name :
  name ∈ names → get name ((λ n, (n, b)) <$> names) = Some b.
Proof.
  induction names as [|n names IH]; [by intros ?%elem_of_nil|].
  simpl. destruct (decide (n = name)) as [->|Hne]; [done|].
  intros [?|Hin]%elem_of_cons; [done|]. by apply IH.
Qed.

Lemma make_mch_follow_bone_exact i org s b b0 :
  get org (edit_bones (obj s)) = Some b →
  get (base_bone (self s)) (edit_bones (obj s)) = Some b0 →
  new_bone_name (bone_names s)
    (requested_name org (make_derived_name org "mch")) ∉ bone_names s →
  make_mch_follow_bone i org s =
    (Return (new_bone_name (bone_names s)
               (requested_name org (make_derived_name org "mch"))),
     set_edit_bones
       (edit_bones (obj s) ++
        [(new_bone_name (bone_names s)
            (requested_name org (make_derived_name org "mch")),
          follow_bone b0)]) s).
Proof.
  intros Hb Hb0 Hfresh. unfold make_mch_follow_bone.
  rewrite (bind_Return _ _ _ _ _
             (copy_bone_exact s org (make_derived_name org "mch") false b Hb)).
  set (name := new_bone_name _ _) in *.
  match goal with
  | |- context [set_edit_bones (_ ++ [(name, ?c)]) s] => set (copy := c)
  end.
  set (eb := edit_bones (obj s)) in *.
  set (s1 := set_edit_bones (eb ++ [(name, copy)]) s).
  unfold mbind at 1, M_bind at 1, gets at 1. cbn [compose].
  assert (base_bone (self s) ∈ keys eb) as Hbase
    by (apply get_is_Some; by eexists).
  assert (get (base_bone (self s1)) (edit_bones (obj s1)) = Some b0) as Hg0.
  { unfold s1. simpl. by rewrite get_app_l. }
  assert (get name (edit_bones (obj s1)) = Some copy) as Hg1.
  { unfold s1. simpl. rewrite get_app_r by done. simpl.
    by rewrite decide_True. }
  rewrite (bind_Return _ _ _ _ _
             (copy_bone_position_exact s1 _ name b0 copy Hg0 Hg1)).
  match goal with
  | |- context [set name ?m (edit_bones (obj s1))] => set (moved := m)
  end.
  set (s2 := set_edit_bones (set name moved (edit_bones (obj s1))) s1).
  assert (get name (edit_bones (obj s2)) = Some moved) as Hg2.
  { unfold s2. simpl. apply get_set_eq. }
  rewrite (bind_Return _ _ _ _ _ (flip_bone_exact s2 name moved Hg2)).
  unfold mret, M_ret, s2, s1. simpl.
  rewrite !set_app_r by done. simpl.
  rewrite decide_True by done. simpl. by rewrite decide_True.
Qed.

(** The loop of [make_follow_chain], when the host gives new names. *)
Lemma make_follow_bones_exact b0 l : ∀ start s,
  get (base_bone (self s)) (edit_bones (obj s)) = Some b0 →
  (∀ org, org ∈ l → has_bone s org) →
  NoDup (bone_names s ++ follow_names (bone_names s) l) →
  map_list_count make_mch_follow_bone start l s =
    (Return (follow_names (bone_names s) l),
     set_edit_bones
       (edit_bones (obj s) ++
        ((λ n, (n, follow_bone b0)) <$> follow_names (bone_names s) l)) s).
Proof.
  induction l as [|org l IH]; intros start s Hb0 Hl Hnd.
  - simpl. by rewrite app_nil_r, set_edit_bones_id.
  - destruct (has_bone_get s org (Hl org ltac:(left))) as [b Hb].
    simpl in Hnd |- *.
    set (name := new_bone_name (bone_names s)
                   (requested_name org (make_derived_name org "mch"))) in *.
    assert (name ∉ bone_names s) as Hfresh.
    { intros Hin. apply NoDup_app in Hnd as (_ & Hdisj & _).
      apply (Hdisj name Hin). left. }
    rewrite (bind_Return _ _ _ _ _
               (make_mch_follow_bone_exact start org s b b0 Hb Hb0 Hfresh)).
    fold name.
    set (s1 := set_edit_bones (edit_bones (obj s) ++ [(name, follow_bone b0)]) s).
    assert (bone_names s1 = bone_names s ++ [name]) as Hnames1.
    { unfold s1, bone_names. simpl. by rewrite keys_app. }
    assert (get (base_bone (self s1)) (edit_bones (obj s1)) = Some b0) as Hb1.
    { unfold s1. simpl. rewrite get_app_l; [done|].
      apply get_is_Some. by eexists. }
    assert (∀ o, o ∈ l → has_bone s1 o) as Hl1.
    { intros o Ho. unfold has_bone. rewrite Hnames1. apply elem_of_app. left.
      apply Hl. by right. }
    assert (NoDup (bone_names s1 ++ follow_names (bone_names s1) l)) as Hnd1.
    { rewrite Hnames1, <- app_assoc. exact Hnd. }
    rewrite (bind_Return _ _ _ _ _ (IH (S start) s1 Hb1 Hl1 Hnd1)).
    rewrite Hnames1. unfold mret, M_ret, s1. simpl.
    by rewrite <- app_assoc.
Qed.

Lemma make_follow_chain_exact s b0 :
  get (base_bone (self s)) (edit_bones (obj s)) = Some b0 →
  (∀ org, org ∈ drop 1 (bones_org (self s)) → has_bone s org) →
  NoDup (bone_names s ++
         follow_names (bone_names s) (drop 1 (bones_org (self s)))) →
  make_follow_chain s =
    (Return tt,
     set_self
       (with_mch_follow
          (follow_names (bone_names s) (drop 1 (bones_org (self s))))
          (self s))
       (set_edit_bones
          (edit_bones (obj s) ++
           ((λ n, (n, follow_bone b0)) <$>
            follow_names (bone_names s) (drop 1 (bones_org (self s))))) s)).
Proof.
  intros Hb0 Horg Hnd.
  unfold make_follow_chain, mbind at 1, M_bind at 1, gets at 1. cbn [compose].
  by rewrite (bind_Return _ _ _ _ _
                (make_follow_bones_exact b0 _ 1 s Hb0 Horg Hnd)).
Qed.

(** X8: every follow bone lies on the base bone, turned over: its head is the
    tail of the base bone, its tail the head, its roll the same, and it has
    no parent yet. The follow bones are added after the bones of the
    armature, which stay as they were. The host gives names that are new
    and distinct. *)
Theorem make_follow_chain_bones s b0 :
  get (base_bone (self s)) (edit_bones (obj s)) = Some b0 →
  (∀ org, org ∈ drop 1 (bones_org (self s)) → has_bone s org) →
  NoDup (bone_names s ++
         follow_names (bone_names s) (drop 1 (bones_org (self s)))) →
  ∃ s' follow,
    make_follow_chain s = (Return tt, s') ∧
    bones_mch_follow (self s') = Some follow ∧
    follow = follow_names (bone_names s) (drop 1 (bones_org (self s))) ∧
    bone_names s' = bone_names s ++ follow ∧
    (∀ mch, mch ∈ follow →
       get mch (edit_bones (obj s')) =
         Some {| eb_head := eb_tail b0; eb_tail := eb_head b0;
                 eb_roll := eb_roll b0; eb_parent := None;
                 eb_use_connect := false |}) ∧
    (∀ name, name ∈ bone_names s →
       get name (edit_bones (obj s')) = get name (edit_bones (obj s))).
Proof.
  intros Hb0 Horg Hnd. eexists _, _. split.
  - by apply (make_follow_chain_exact s b0).
  - split; [done|]. split; [done|]. simpl. split; [|split].
    + unfold bone_names. simpl. rewrite keys_app. f_equal.
      unfold keys. rewrite <- list_fmap_compose. apply list_fmap_id.
    + intros mch Hmch. rewrite get_app_r.
      * by apply get_fmap_const.
      * intros Hin. apply NoDup_app in Hnd as (_ & Hdisj & _).
        by apply (Hdisj mch Hin).
    + intros name Hname. by apply get_app_l.
Qed.

(** *** The bones of the generate phase *)

Lemma make_control_chain_Return s org0 rest :
  bones_org (self s) = org0 :: rest →
  has_bone s org0 →
  ∃ eb,
    make_control_chain s =
      (Return tt,
       set_self (with_ctrl_master (master_name (bone_names s) org0) (self s))
         (set_edit_bones eb s)) ∧
    keys eb = bone_names s ++ [master_name (bone_names s) org0].
Proof.
  intros Horg Hb. unfold make_control_chain.
  rewrite (bind_Return _ _ _ _ _ (org_0_Return s org0 rest Horg)).
  destruct (copy_bone_Return s org0 (make_derived_name org0 "ctrl") true Hb)
    as [b Hcopy].
  rewrite (bind_Return _ _ _ _ _ Hcopy).
  fold (master_name (bone_names s) org0).
  set (name := master_name (bone_names s) org0) in *.
  set (s1 := set_edit_bones _ s) in *.
  assert (bone_names s1 = bone_names s ++ [name]) as Hnames1.
  { unfold s1, bone_names. simpl. by rewrite keys_app. }
  destruct (flip_bone_Return s1 name) as (eb & Hflip & Hkeys).
  { unfold has_bone. rewrite Hnames1. apply elem_of_app. right. left. }
  rewrite (bind_Return _ _ _ _ _ Hflip).
  exists eb. split; [done|]. by rewrite Hkeys.
Qed.

Lemma make_follow_chain_names s :
  (∀ org, org ∈ drop 1 (bones_org (self s)) → has_bone s org) →
  has_bone s (base_bone (self s)) →
  ∃ eb,
    make_follow_chain s =
      (Return tt,
       set_self
         (with_mch_follow
            (follow_names (bone_names s) (drop 1 (bones_org (self s))))
            (self s))
         (set_edit_bones eb s)) ∧
    keys eb =
      bone_names s ++
      follow_names (bone_names s) (drop 1 (bones_org (self s))).
Proof.
  intros Horg Hbase.
  destruct (make_follow_bones_Return (drop 1 (bones_org (self s))) 1 s
              Horg Hbase)
    as (names & eb & Hrun & Hkeys & Hlen & Hnth).
  rewrite (follow_names_unique _ (bone_names s) names Hlen Hnth) in *.
  exists eb. split; [|done].
  unfold make_follow_chain, mbind at 1, M_bind at 1, gets at 1. cbn [compose].
  by rewrite (bind_Return _ _ _ _ _ Hrun).
Qed.

(** X9: the generate handlers of the rig, one after the other, add one bone
    for each original bone of the chain: the master control, then one follow
    bone for each original bone after the first, in the order of the chain.
    This holds for a chain of any length from one bone on. *)
Theorem generate_bones_creates s org0 rest :
  bones_org (self s) = org0 :: rest →
  (∀ org, org ∈ org0 :: rest → has_bone s org) →
  has_bone s (base_bone (self s)) →
  ∃ s' master follow,
    (make_control_chain ;; make_follow_chain) s = (Return tt, s') ∧
    master = master_name (bone_names s) org0 ∧
    follow = follow_names (bone_names s ++ [master]) rest ∧
    bones_ctrl_master (self s') = Some master ∧
    bones_mch_follow (self s') = Some follow ∧
    bone_names s' = bone_names s ++ [master] ++ follow ∧
    length (bone_names s') = length (bone_names s) + length (org0 :: rest) ∧
    constraints (obj s') = constraints (obj s) ∧
    report s' = report s.
Proof.
  intros Horg Hbones Hbase.
  destruct (make_control_chain_Return s org0 rest Horg (Hbones org0 ltac:(left)))
    as (eb1 & Hctrl & Hkeys1).
  set (master := master_name (bone_names s) org0) in *.
  set (s1 := set_self (with_ctrl_master master (self s)) (set_edit_bones eb1 s))
    in *.
  assert (bone_names s1 = bone_names s ++ [master]) as Hnames1 by done.
  destruct (make_follow_chain_names s1) as (eb2 & Hfollow & Hkeys2).
  { intros org Ho. unfold has_bone. rewrite Hnames1. apply elem_of_app. left.
    apply Hbones. simpl in Ho. rewrite Horg in Ho. by right. }
  { unfold has_bone. rewrite Hnames1. apply elem_of_app. by left. }
  assert (drop 1 (bones_org (self s1)) = rest) as Hrest
    by (simpl; by rewrite Horg).
  rewrite Hrest, Hnames1 in Hfollow, Hkeys2.
  eexists _, master, _. split.
  - rewrite (bind_Return _ _ _ _ _ Hctrl). exact Hfollow.
  - split; [done|]. split; [done|]. split; [done|]. split; [done|].
    assert (bone_names
              (set_self
                 (with_mch_follow (follow_names (bone_names s ++ [master]) rest)
                    (self s1)) (set_edit_bones eb2 s1))
            = bone_names s ++ [master] ++ follow_names (bone_names s ++ [master]) rest)
      as Hnames2.
    { unfold bone_names at 1. simpl. by rewrite Hkeys2, <- app_assoc. }
    split; [done|]. split; [|done].
    rewrite Hnames2, !length_app, length_follow_names. simpl. lia.
Qed.

(** X10: with the first original bone as base bone, every follow bone lies on
    the master control: same head, same tail, same roll. The master keeps
    the parent of the original; the follow bones have none yet. The host
    gives names that are new and distinct. *)
Theorem follow_bones_on_master s org0 rest b :
  bones_org (self s) = org0 :: rest →
  base_bone (self s) = org0 →
  get org0 (edit_bones (obj s)) = Some b →
  (∀ org, org ∈ rest → has_bone s org) →
  NoDup (bone_names s ++ [master_name (bone_names s) org0] ++
         follow_names (bone_names s ++ [master_name (bone_names s) org0]) rest) →
  ∃ s' master follow mb,
    (make_control_chain ;; make_follow_chain) s = (Return tt, s') ∧
    bones_ctrl_master (self s') = Some master ∧
    bones_mch_follow (self s') = Some follow ∧
    length follow = length rest ∧
    get master (edit_bones (obj s')) = Some mb ∧
    eb_parent mb = eb_parent b ∧
    (∀ mch, mch ∈ follow →
       ∃ fb, get mch (edit_bones (obj s')) = Some fb ∧
         eb_head fb = eb_head mb ∧
         eb_tail fb = eb_tail mb ∧
         eb_roll fb = eb_roll mb ∧
         eb_parent fb = None).
Proof.
  intros Horg Hbase Hb Hrest Hnd.
  set (master := master_name (bone_names s) org0) in *.
  assert (master ∉ bone_names s) as Hfresh.
  { intros Hin. apply NoDup_app in Hnd as (_ & Hdisj & _).
    apply (Hdisj master Hin). left. }
  pose proof (make_control_chain_exact s org0 rest b Horg Hb Hfresh) as Hctrl.
  fold master in Hctrl.
  set (eb1 := edit_bones (obj s) ++ [(master, flipped b)]) in *.
  set (s1 := set_self (with_ctrl_master master (self s)) (set_edit_bones eb1 s))
    in *.
  assert (bone_names s1 = bone_names s ++ [master]) as Hnames1.
  { unfold s1, eb1, bone_names. simpl. by rewrite keys_app. }
  assert (org0 ∈ keys (edit_bones (obj s))) as Horg0
    by (apply get_is_Some; by eexists).
  assert (drop 1 (bones_org (self s1)) = rest) as Hdrop
    by (simpl; by rewrite Horg).
  pose proof (make_follow_chain_exact s1 b) as Hfollow.
  rewrite Hdrop, Hnames1 in Hfollow.
  set (follow := follow_names (bone_names s ++ [master]) rest) in *.
  assert (get master eb1 = Some (flipped b)) as Hm.
  { unfold eb1. rewrite get_app_r by done. simpl. by rewrite decide_True. }
  exists (set_self (with_mch_follow follow (self s1))
            (set_edit_bones
               (edit_bones (obj s1) ++ ((λ n, (n, follow_bone b)) <$> follow))
               s1)),
    master, follow, (flipped b).
  split; [|split; [done|split; [done|split; [|split; [|split; [done|]]]]]].
  - rewrite (bind_Return _ _ _ _ _ Hctrl). apply Hfollow.
    + unfold s1, eb1. simpl. rewrite Hbase. by rewrite get_app_l.
    + intros org Ho. unfold has_bone. rewrite Hnames1. apply elem_of_app.
      left. by apply Hrest.
    + by rewrite <- app_assoc.
  - apply length_follow_names.
  - simpl. rewrite get_app_l; [done|]. apply get_is_Some. by eexists.
  - intros mch Hmch. exists (follow_bone b). split; [|done]. simpl.
    rewrite get_app_r.
    + by apply get_fmap_const.
    + change (mch ∉ bone_names s1). rewrite Hnames1. intros Hin.
      rewrite app_assoc in Hnd. apply NoDup_app in Hnd as (_ & Hdisj & _).
      by apply (Hdisj mch Hin).
Qed.

(** *** The parents of the follow chain *)

(** The loop of [parent_follow_chain]: the bones of the list get the parent
    of the rig, the others are as before. *)
Lemma parent_follow_loop_Return follow : ∀ s,
  (∀ mch, mch ∈ follow → has_bone s mch) →
  (∀ root, rig_parent_bone (self s) = Some root → has_bone s root) →
  ∃ eb,
    for_each follow (λ mch,
      parent ← gets (rig_parent_bone ∘ self);
      set_bone_parent mch parent) s = (Return tt, set_edit_bones eb s) ∧
    keys eb = bone_names s ∧
    ∀ name,
      get name eb =
        if decide (name ∈ follow)
        then with_parent (rig_parent_bone (self s))
               <$> get name (edit_bones (obj s))
        else get name (edit_bones (obj s)).
Proof.
  induction follow as [|mch follow IH]; intros s Hfollow Hroot.
  { exists (edit_bones (obj s)). rewrite set_edit_bones_id.
    split; [done|]. split; [done|]. intros name.
    rewrite decide_False; [done|apply not_elem_of_nil]. }
  destruct (has_bone_get s mch (Hfollow mch ltac:(left))) as [b Hb].
  pose proof (set_bone_parent_Return s mch (rig_parent_bone (self s)) b Hb Hroot)
    as Hset.
  fold (with_parent (rig_parent_bone (self s)) b) in Hset.
  set (root := rig_parent_bone (self s)) in *.
  set (s1 := set_edit_bones (set mch (with_parent root b) (edit_bones (obj s))) s)
    in *.
  assert (bone_names s1 = bone_names s) as Hnames1.
  { unfold s1, bone_names. simpl. apply keys_set_in, (Hfollow mch). left. }
  destruct (IH s1) as (eb & Hrun & Hkeys & Hget).
  { intros m Hm. unfold has_bone. rewrite Hnames1. apply Hfollow. by right. }
  { intros r Hr. unfold has_bone. rewrite Hnames1. by apply Hroot. }
  exists eb. split; [|split].
  - assert ((parent ← gets (rig_parent_bone ∘ self);
             set_bone_parent mch parent) s = (Return tt, s1)) as Hstep.
    { unfold mbind at 1, M_bind at 1, gets at 1. cbn [compose].
      exact Hset. }
    cbn [for_each]. by rewrite (bind_Return _ _ _ _ _ Hstep).
  - by rewrite Hkeys.
  - intros name. rewrite (Hget name).
    change (rig_parent_bone (self s1)) with root.
    change (edit_bones (obj s1))
      with (set mch (with_parent root b) (edit_bones (obj s))).
    destruct (decide (mch = name)) as [<-|Hne].
    + rewrite get_set_eq, Hb, (decide_True (P := mch ∈ mch :: follow))
        by left.
      by destruct (decide (mch ∈ follow)).
    + rewrite get_set_ne by done.
      destruct (decide (name ∈ follow)) as [Hin|Hnin].
      * rewrite decide_True; [done|by right].
      * rewrite decide_False; [done|].
        by intros [?|?]%elem_of_cons.
Qed.

(** X11: after [parent_follow_chain] every follow bone has the parent of the
    rig as parent (none, when the rig has none); every bone outside the
    follow chain is untouched; no bone is added or removed, and the
    constraints, the rig object and the report are as they were. *)
Theorem parent_follow_chain_parents s follow :
  bones_mch_follow (self s) = Some follow →
  (∀ mch, mch ∈ follow → has_bone s mch) →
  (∀ root, rig_parent_bone (self s) = Some root → has_bone s root) →
  ∃ s',
    parent_follow_chain s = (Return tt, s') ∧
    (∀ mch, mch ∈ follow →
       bone_parent s' mch = Some (rig_parent_bone (self s))) ∧
    (∀ name, name ∉ follow →
       get name (edit_bones (obj s')) = get name (edit_bones (obj s))) ∧
    bone_names s' = bone_names s ∧
    constraints (obj s') = constraints (obj s) ∧
    self s' = self s ∧
    report s' = report s.
Proof.
  intros Hfollow Hbones Hroot.
  destruct (parent_follow_loop_Return follow s Hbones Hroot)
    as (eb & Hrun & Hkeys & Hget).
  exists (set_edit_bones eb s).
  split; [|split; [|split; [|done]]].
  - unfold parent_follow_chain.
    by rewrite (bind_Return _ _ _ _ _
                  (getattr_Return "follow" _ s follow Hfollow)).
  - intros mch Hmch. unfold bone_parent. simpl.
    rewrite (Hget mch), decide_True by done.
    destruct (has_bone_get s mch (Hbones mch Hmch)) as [b ->]. done.
  - intros name Hname. simpl. by rewrite (Hget name), decide_False.
Qed.

(** *** From the follow chain to its constraints *)

(** Making a follow bone leaves the rig object alone, and the errors it can
    raise are those of a missing bone. *)
Lemma make_mch_follow_bone_safe i org s o s1 :
  make_mch_follow_bone i org s = (o, s1) →
  self s1 = self s ∧
  ∀ e, o = Raise e → e ≠ ZeroDivisionError ∧ e ≠ OverflowError.
Proof.
  unfold make_mch_follow_bone, copy_bone, copy_bone_position, flip_bone,
    edit_bone, mbind, M_bind, gets, modify, raise, mret, M_ret.
  cbn [compose fst snd].
  repeat (case_match; simplify_eq; cbn [obj edit_bones set_edit_bones self] in * );
    intros [= <- <-]; (split; [done|]); intros ? ?; simplify_eq; done.
Qed.

Lemma make_follow_bones_safe l : ∀ start s o s1,
  map_list_count make_mch_follow_bone start l s = (o, s1) →
  self s1 = self s ∧
  match o with
  | Return follow => length follow = length l
  | Raise e => e ≠ ZeroDivisionError ∧ e ≠ OverflowError
  end.
Proof.
  induction l as [|org l IH]; intros start s o s1; cbn [map_list_count].
  { by intros [= <- <-]. }
  destruct (make_mch_follow_bone start org s) as [[name|e] s2] eqn:Hone.
  - rewrite (bind_Return _ _ _ _ _ Hone).
    destruct (make_mch_follow_bone_safe _ _ _ _ _ Hone) as [Hself _].
    destruct (map_list_count make_mch_follow_bone (S start) l s2)
      as [[names|e] s3] eqn:Hrest;
      destruct (IH _ _ _ _ Hrest) as [Hself' Hrest'].
    + rewrite (bind_Return _ _ _ _ _ Hrest). intros [= <- <-].
      split; [congruence|]. simpl. by rewrite Hrest'.
    + rewrite (bind_Raise _ _ _ _ _ Hrest). intros [= <- <-].
      split; [congruence|done].
  - rewrite (bind_Raise _ _ _ _ _ Hone). intros [= <- <-].
    destruct (make_mch_follow_bone_safe _ _ _ _ _ Hone) as [Hself Hsafe].
    split; [done|]. by apply Hsafe.
Qed.

(** [make_follow_chain], when it returns, has recorded one follow bone for
    each original bone after the first and left the rest of the rig object
    alone; when it raises, a bone was missing. *)
Lemma make_follow_chain_safe s o s1 :
  make_follow_chain s = (o, s1) →
  match o with
  | Return _ =>
      ∃ follow, bones_mch_follow (self s1) = Some follow ∧
        length follow = length (bones_org (self s)) - 1 ∧
        bones_org (self s1) = bones_org (self s) ∧
        bones_ctrl_master (self s1) = bones_ctrl_master (self s)
  | Raise e => e ≠ ZeroDivisionError ∧ e ≠ OverflowError
  end.
Proof.
  unfold make_follow_chain, mbind at 1, M_bind at 1, gets at 1.
  cbn [compose].
  destruct (map_list_count make_mch_follow_bone 1 (drop 1 (bones_org (self s))) s)
    as [[follow|e] s2] eqn:Hbones;
    destruct (make_follow_bones_safe _ _ _ _ _ Hbones) as [Hself Hres].
  - rewrite (bind_Return _ _ _ _ _ Hbones). unfold modify. intros [= <- <-].
    exists follow. simpl. rewrite Hself, Hres, length_drop. done.
  - rewrite (bind_Raise _ _ _ _ _ Hbones). by intros [= <- <-].
Qed.

Lemma getattr_Raise {A} name (field : Rig → option A) s :
  field (self s) = None → getattr name field s = (Raise (AttributeError name), s).
Proof.
  intros Hf. unfold getattr, mbind, M_bind, gets. simpl. by rewrite Hf.
Qed.

(** The loop of [rig_follow_chain] over follow bones that are fewer than the
    original bones can only fail for a missing bone. *)
Lemma rig_follow_loop_safe master num_orgs follow : ∀ start s e s1,
  start + length follow ≤ num_orgs →
  for_each (enumerate_from start follow) (λ '(i, mch),
    q ← truediv (1 + Z.of_nat i) (Z.of_nat num_orgs);
    make_constraint mch "COPY_TRANSFORMS" master (float_sub (Finite 1) q)) s =
  (Raise e, s1) →
  e ≠ ZeroDivisionError ∧ e ≠ OverflowError.
Proof.
  induction follow as [|mch follow IH]; intros start s e s1 HN; [done|].
  cbn [enumerate_from for_each]. cbn [length] in HN.
  destruct (get mch (edit_bones (obj s))) as [b|] eqn:Hb.
  - assert (has_bone s mch) as Hmch by (apply get_is_Some; eauto).
    rewrite (bind_Return _ _ _ _ _
               (rig_follow_body_Return master num_orgs start mch s ltac:(lia)
                  Hmch)).
    apply IH. lia.
  - destruct (truediv_Return start num_orgs s ltac:(lia)) as (q & _ & Hdiv).
    assert ((q ← truediv (1 + Z.of_nat start) (Z.of_nat num_orgs);
             make_constraint mch "COPY_TRANSFORMS" master
               (float_sub (Finite 1) q)) s = (Raise (KeyError mch), s)) as Hbody.
    { rewrite (bind_Return _ _ _ _ _ Hdiv).
      unfold make_constraint, edit_bone, mbind, M_bind, gets. simpl.
      by rewrite Hb. }
    rewrite (bind_Raise _ _ _ _ _ Hbody). by intros [= <- <-].
Qed.

(** X12: [make_follow_chain] followed by [rig_follow_chain] raises neither
    [ZeroDivisionError] nor [OverflowError], whatever the state and the
    length of the chain, 0 and 1 included: the division by the number of
    original bones is only reached when there is a follow bone, and then
    there are at least two original bones. When the master control has
    been recorded and the base bone and the original bones after the first
    are in the armature, the two methods return, and they add one bone and
    one constraint per original bone after the first (none for a chain of
    one bone or an empty chain). *)
Theorem follow_chain_then_constraints s :
  (∀ e s', (make_follow_chain ;; rig_follow_chain) s = (Raise e, s') →
     e ≠ ZeroDivisionError ∧ e ≠ OverflowError) ∧
  (∀ master,
     bones_ctrl_master (self s) = Some master →
     (∀ org, org ∈ drop 1 (bones_org (self s)) → has_bone s org) →
     has_bone s (base_bone (self s)) →
     ∃ s',
       (make_follow_chain ;; rig_follow_chain) s = (Return tt, s') ∧
       length (constraints (obj s')) =
         length (constraints (obj s)) + (length (bones_org (self s)) - 1) ∧
       length (bone_names s') =
         length (bone_names s) + (length (bones_org (self s)) - 1) ∧
       report s' = report s).
Proof.
  split.
  - intros e s'.
    destruct (make_follow_chain s) as [[[]|e1] s1] eqn:Hmk;
      pose proof (make_follow_chain_safe _ _ _ Hmk) as Hsafe.
    + rewrite (bind_Return _ _ _ _ _ Hmk).
      destruct Hsafe as (follow & Hfollow & Hlen & Horg & _).
      unfold rig_follow_chain.
      destruct (bones_ctrl_master (self s1)) as [master|] eqn:Hmaster.
      * rewrite (bind_Return _ _ _ _ _
                   (getattr_Return "master" _ s1 master Hmaster)).
        unfold mbind at 1, M_bind at 1, gets at 1. cbn [compose].
        rewrite (bind_Return _ _ _ _ _
                   (getattr_Return "follow" _ s1 follow Hfollow)).
        apply rig_follow_loop_safe. rewrite Horg. lia.
      * rewrite (bind_Raise _ _ _ _ _
                   (getattr_Raise "master" _ s1 Hmaster)).
        by intros [= <- <-].
    + rewrite (bind_Raise _ _ _ _ _ Hmk). by intros [= <- <-].
  - intros master Hmaster Horg Hbase.
    destruct (make_follow_chain_names s Horg Hbase) as (eb & Hfollow & Hkeys).
    set (follow := follow_names (bone_names s) (drop 1 (bones_org (self s))))
      in *.
    set (s1 := set_self (with_mch_follow follow (self s)) (set_edit_bones eb s))
      in *.
    assert (length follow = length (bones_org (self s)) - 1) as Hlen
      by (unfold follow; by rewrite length_follow_names, length_drop).
    assert (∀ mch, mch ∈ follow → has_bone s1 mch) as Hbones.
    { intros mch Hmch. unfold has_bone, s1, bone_names. simpl. rewrite Hkeys.
      apply elem_of_app. by right. }
    set (cs := (λ '(i, mch),
       {| con_owner := mch; con_type := "COPY_TRANSFORMS";
          con_subtarget := master;
          con_influence :=
            follow_influence i (length (bones_org (self s))) |})
     <$> enumerate_from 0 follow).
    assert (rig_follow_chain s1
            = (Return tt, foldl (λ s c, add_constraint c s) s1 cs)) as Hrig.
    { unfold rig_follow_chain.
      rewrite (bind_Return _ _ _ _ _
                 (getattr_Return "master" _ s1 master Hmaster)).
      unfold mbind at 1, M_bind at 1, gets at 1. cbn [compose].
      rewrite (bind_Return _ _ _ _ _
                 (getattr_Return "follow" _ s1 follow eq_refl)).
      apply (rig_follow_loop_Return master _ follow 0 s1); [|done].
      change (length (bones_org (self s1)))
        with (length (bones_org (self s))).
      lia. }
    exists (foldl (λ s c, add_constraint c s) s1 cs). split.
    + by rewrite (bind_Return _ _ _ _ _ Hfollow).
    + destruct (foldl_add_constraint cs s1) as (Hcons & Hbones' & _ & Hreport).
      split; [|split; [|done]].
      * rewrite Hcons, length_app. unfold cs.
        rewrite length_fmap, length_enumerate_from, Hlen. done.
      * unfold bone_names. rewrite Hbones'. simpl. rewrite Hkeys, length_app.
        fold (bone_names s). by rewrite Hlen.
Qed.

(** *** The pairs of the tweak chain *)

(** [parent_tweak_chain] with the bones it really needs: the tweak bones
    and the parents that [zip] pairs up. *)
Lemma parent_tweak_chain_Return s master tweak follow :
  bones_ctrl_master (self s) = Some master →
  bones_ctrl_tweak (self s) = Some tweak →
  bones_mch_follow (self s) = Some follow →
  NoDup tweak →
  (∀ k t, k < length follow + 2 → tweak !! k = Some t → has_bone s t) →
  (∀ k p, k < length tweak →
     ([Some master] ++ (Some <$> follow) ++ [rig_parent_bone (self s)]) !! k
       = Some (Some p) → has_bone s p) →
  ∃ eb,
    parent_tweak_chain s = (Return tt, set_edit_bones eb s) ∧
    keys eb = bone_names s ∧
    (∀ k t p, tweak !! k = Some t →
       ([Some master] ++ (Some <$> follow) ++ [rig_parent_bone (self s)]) !! k
         = Some p →
       eb_parent <$> get t eb = Some p) ∧
    (∀ name, name ∉ take (length follow + 2) tweak →
       get name eb = get name (edit_bones (obj s))).
Proof.
  intros Hmaster Htweak Hfollow Hnd Htw Hps.
  set (parents := [Some master] ++ (Some <$> follow) ++
                  [rig_parent_bone (self s)]) in *.
  assert (length parents = length follow + 2) as Hplen.
  { unfold parents. rewrite !length_app, length_fmap. simpl. lia. }
  destruct (parent_loop_Return (take (length parents) tweak)
              (take (length tweak) parents) s)
    as (eb & Hrun & Hkeys & Hpar & Hother).
  { eapply sublist_NoDup; [exact Hnd|apply sublist_take]. }
  { intros t (k & Hk & Hlt)%elem_of_take. apply (Htw k); [lia|done]. }
  { intros p (k & Hk & Hlt)%elem_of_take. by apply (Hps k). }
  rewrite zip_with_take_both in Hrun.
  exists eb. split; [|split; [done|split]].
  - unfold parent_tweak_chain.
    rewrite (bind_Return _ _ _ _ _ (getattr_Return "master" _ s master Hmaster)).
    rewrite (bind_Return _ _ _ _ _ (getattr_Return "follow" _ s follow Hfollow)).
    unfold mbind at 1, M_bind at 1, gets at 1. cbn [compose].
    rewrite (bind_Return _ _ _ _ _ (getattr_Return "tweak" _ s tweak Htweak)).
    exact Hrun.
  - intros k t p Hk Hp. apply (Hpar k).
    + rewrite lookup_take_lt; [done|by apply lookup_lt_Some in Hp].
    + rewrite lookup_take_lt; [done|by apply lookup_lt_Some in Hk].
  - intros name Hname. apply Hother. by rewrite Hplen.
Qed.

(** X13: [parent_tweak_chain] pairs tweak bones and parents with [zip]: the
    tweak bones that have a counterpart in [master, follow..., root] get it
    as parent, the tweak bones after those are left as they are, and a
    parent without tweak bone is not used, so that neither the bones
    beyond the pairs nor the unused parents need to be in the armature. *)
Theorem parent_tweak_chain_pairs s master tweak follow :
  bones_ctrl_master (self s) = Some master →
  bones_ctrl_tweak (self s) = Some tweak →
  bones_mch_follow (self s) = Some follow →
  NoDup tweak →
  (∀ k t, k < length follow + 2 → tweak !! k = Some t → has_bone s t) →
  (∀ k p, k < length tweak →
     ([Some master] ++ (Some <$> follow) ++ [rig_parent_bone (self s)]) !! k
       = Some (Some p) → has_bone s p) →
  ∃ s',
    parent_tweak_chain s = (Return tt, s') ∧
    (∀ k t p, tweak !! k = Some t →
       ([Some master] ++ (Some <$> follow) ++ [rig_parent_bone (self s)]) !! k
         = Some p →
       bone_parent s' t = Some p) ∧
    (∀ k t, length follow + 2 ≤ k → tweak !! k = Some t →
       get t (edit_bones (obj s')) = get t (edit_bones (obj s))) ∧
    (∀ name, name ∉ tweak →
       get name (edit_bones (obj s')) = get name (edit_bones (obj s))) ∧
    bone_names s' = bone_names s.
Proof.
  intros Hmaster Htweak Hfollow Hnd Htw Hps.
  destruct (parent_tweak_chain_Return s master tweak follow
              Hmaster Htweak Hfollow Hnd Htw Hps)
    as (eb & Hrun & Hkeys & Hpar & Hother).
  exists (set_edit_bones eb s).
  split; [done|]. split; [|split; [|split; [|done]]].
  - intros k t p Hk Hp. by apply (Hpar k).
  - intros k t Hk Ht. simpl. apply Hother.
    intros (j & Hj & Hlt)%elem_of_take.
    pose proof (NoDup_lookup _ _ _ _ Hnd Hj Ht). lia.
  - intros name Hname. simpl. apply Hother.
    intros Hin. apply Hname. by apply (subseteq_take (length follow + 2)).
Qed.

(** X14: the parent handlers of the rig, one after the other: the follow bones
    end up under the parent of the rig and the tweak bones under
    [master, follow..., root], in order; parenting the tweak chain does not
    undo the parents of the follow chain, and bones of neither chain are
    untouched. The two chains have no bone in common. *)
Theorem parent_handlers_compose s master tweak follow :
  bones_ctrl_master (self s) = Some master →
  bones_ctrl_tweak (self s) = Some tweak →
  bones_mch_follow (self s) = Some follow →
  NoDup tweak →
  (∀ t, t ∈ tweak → t ∉ follow) →
  (∀ t, t ∈ tweak → has_bone s t) →
  has_bone s master →
  (∀ mch, mch ∈ follow → has_bone s mch) →
  (∀ root, rig_parent_bone (self s) = Some root → has_bone s root) →
  ∃ s',
    (parent_control_chain ;; parent_follow_chain ;; parent_tweak_chain) s
      = (Return tt, s') ∧
    (∀ mch, mch ∈ follow →
       bone_parent s' mch = Some (rig_parent_bone (self s))) ∧
    (∀ k t p, tweak !! k = Some t →
       ([Some master] ++ (Some <$> follow) ++ [rig_parent_bone (self s)]) !! k
         = Some p →
       bone_parent s' t = Some p) ∧
    (∀ name, name ∉ follow → name ∉ tweak →
       get name (edit_bones (obj s')) = get name (edit_bones (obj s))) ∧
    bone_names s' = bone_names s.
Proof.
  intros Hmaster Htweak Hfollow Hnd Hdisj Htw Hm Hfl Hroot.
  destruct (parent_follow_loop_Return follow s Hfl Hroot)
    as (eb1 & Hrun1 & Hkeys1 & Hget1).
  set (s1 := set_edit_bones eb1 s).
  assert (bone_names s1 = bone_names s) as Hnames1 by done.
  assert (parent_follow_chain s = (Return tt, s1)) as Hpf.
  { unfold parent_follow_chain.
    by rewrite (bind_Return _ _ _ _ _
                  (getattr_Return "follow" _ s follow Hfollow)). }
  destruct (parent_tweak_chain_Return s1 master tweak follow
              Hmaster Htweak Hfollow Hnd)
    as (eb2 & Hrun2 & Hkeys2 & Hpar & Hother).
  { intros k t _ Ht. unfold has_bone. rewrite Hnames1. apply Htw.
    apply list_elem_of_lookup. by exists k. }
  { intros k p _ Hp. unfold has_bone. rewrite Hnames1.
    change (rig_parent_bone (self s1)) with (rig_parent_bone (self s)) in Hp.
    assert (Some p ∈ [Some master] ++ (Some <$> follow) ++
                     [rig_parent_bone (self s)]) as Hin
      by (apply list_elem_of_lookup; by exists k).
    apply elem_of_app in Hin as [Hin|[Hin|Hin]%elem_of_app].
    - apply list_elem_of_singleton in Hin. by injection Hin as ->.
    - apply list_elem_of_fmap in Hin as (mch & [= ->] & Hmch). by apply Hfl.
    - apply list_elem_of_singleton in Hin. by apply Hroot. }
  exists (set_edit_bones eb2 s).
  split; [|split; [|split; [|split]]].
  - unfold parent_control_chain.
    unfold mbind at 1, M_bind at 1, mret at 1, M_ret at 1.
    rewrite (bind_Return _ _ _ _ _ Hpf). exact Hrun2.
  - intros mch Hmch. unfold bone_parent. simpl.
    rewrite Hother.
    + change (edit_bones (obj s1)) with eb1.
      rewrite (Hget1 mch), decide_True by done.
      by destruct (has_bone_get s mch (Hfl mch Hmch)) as [b ->].
    + intros Hin%(subseteq_take (length follow + 2)). by apply (Hdisj mch).
  - intros k t p Hk Hp. by apply (Hpar k).
  - intros name Hnf Hnt. simpl. rewrite Hother.
    + change (edit_bones (obj s1)) with eb1.
      by rewrite (Hget1 name), decide_False.
    + intros Hin%(subseteq_take (length follow + 2)). by apply Hnt.
  - unfold bone_names. simpl. by rewrite Hkeys2.
Qed.

End facts.

(** *** The theorems on the sample metarig *)

Import TongueSample TongueMoreSample.


(** Three new bones for the three original bones of the sample. *)
Lemma generate_bones_creates_witness :
  ∃ s',
    (make_control_chain ;; make_follow_chain) sample_state = (Return tt, s') ∧
    bone_names s' =
      bone_names sample_state ++
      ["tongue"; "MCH-tongue.001"; "MCH-tongue.002"].
Proof.
  destruct (@generate_bones_creates sample_env sample_state "ORG-tongue"
              ["ORG-tongue.001"; "ORG-tongue.002"])
    as (s' & master & follow & Hrun & -> & -> & _ & _ & Hnames & _).
  - vm_compute. reflexivity.
  - apply sample_has_bones. vm_compute. reflexivity.
  - apply (sample_has_bones sample_state ["ORG-tongue"]); [|left].
    vm_compute. reflexivity.
  - exists s'. split; [exact Hrun|]. rewrite Hnames. vm_compute. reflexivity.
Defined.

(** The two follow bones of the sample lie on the base bone, turned over. *)
Lemma make_follow_chain_bones_witness :
  ∃ s',
    make_follow_chain sample_state = (Return tt, s') ∧
    bones_mch_follow (self s') = Some ["MCH-tongue.001"; "MCH-tongue.002"] ∧
    get "MCH-tongue.002" (edit_bones (obj s')) =
      Some {| eb_head := (0, 161 # 10000, 74 # 10000)%Q;
              eb_tail := (0, 0, 0)%Q; eb_roll := 0%Q;
              eb_parent := None; eb_use_connect := false |}.
Proof.
  destruct (@make_follow_chain_bones sample_env sample_state
              (bone (0, 0, 0)%Q (0, 161 # 10000, 74 # 10000)%Q
                    (Some "root") false))
    as (s' & follow & Hrun & Hfollow & -> & _ & Hbone & _).
  - vm_compute. reflexivity.
  - apply sample_has_bones. vm_compute. reflexivity.
  - apply (bool_decide_unpack _). vm_compute. reflexivity.
  - exists s'. split; [exact Hrun|]. split.
    + rewrite Hfollow. vm_compute. reflexivity.
    + apply Hbone. apply (bool_decide_unpack _). vm_compute. reflexivity.
Defined.

(** The follow bones of the sample lie on its master control. *)
Lemma follow_bones_on_master_witness :
  ∃ s' master follow mb,
    (make_control_chain ;; make_follow_chain) sample_state = (Return tt, s') ∧
    bones_ctrl_master (self s') = Some master ∧
    bones_mch_follow (self s') = Some follow ∧
    length follow = 2 ∧
    get master (edit_bones (obj s')) = Some mb ∧
    eb_parent mb = Some "root" ∧
    (∀ mch, mch ∈ follow →
       ∃ fb, get mch (edit_bones (obj s')) = Some fb ∧
         eb_head fb = eb_head mb ∧
         eb_tail fb = eb_tail mb ∧
         eb_roll fb = eb_roll mb ∧
         eb_parent fb = None).
Proof.
  apply (@follow_bones_on_master sample_env sample_state "ORG-tongue"
           ["ORG-tongue.001"; "ORG-tongue.002"]
           (bone (0, 0, 0)%Q (0, 161 # 10000, 74 # 10000)%Q
                 (Some "root") false)).
  - vm_compute. reflexivity.
  - vm_compute. reflexivity.
  - vm_compute. reflexivity.
  - apply sample_has_bones. vm_compute. reflexivity.
  - apply (bool_decide_unpack _). vm_compute. reflexivity.
Defined.

(** The follow bones of the generated sample go under the root. *)
Lemma parent_follow_chain_parents_witness :
  ∃ s',
    parent_follow_chain generated_state = (Return tt, s') ∧
    bone_parent s' "MCH-tongue.001" = Some (Some "root") ∧
    bone_parent s' "MCH-tongue.002" = Some (Some "root") ∧
    bone_parent s' "tongue" = bone_parent generated_state "tongue".
Proof.
  destruct (parent_follow_chain_parents generated_state
              ["MCH-tongue.001"; "MCH-tongue.002"])
    as (s' & Hrun & Hpar & Hother & _).
  - vm_compute. reflexivity.
  - apply sample_has_bones. vm_compute. reflexivity.
  - intros root Hroot. apply (sample_has_bones generated_state ["root"]).
    + vm_compute. reflexivity.
    + vm_compute in Hroot. injection Hroot as <-. left.
  - exists s'. split; [exact Hrun|]. split; [|split].
    + rewrite Hpar by left. vm_compute. reflexivity.
    + rewrite Hpar by (right; left). vm_compute. reflexivity.
    + unfold bone_parent. rewrite Hother; [reflexivity|].
      apply (bool_decide_unpack _). vm_compute. reflexivity.
Defined.

(** On the sample with its master control: no constraint for a chain of
    one bone or an empty chain, two constraints for the chain of three
    bones; and without master control the error is that of the missing
    attribute. *)
Lemma follow_chain_then_constraints_witness :
  (∃ s',
     (make_follow_chain ;; rig_follow_chain) (chain_state ["ORG-tongue"])
       = (Return tt, s') ∧
     length (constraints (obj s')) = 0 ∧
     bone_names s' = bone_names controlled_state) ∧
  (∃ s',
     (make_follow_chain ;; rig_follow_chain) (chain_state [])
       = (Return tt, s') ∧
     length (constraints (obj s')) = 0 ∧
     bone_names s' = bone_names controlled_state) ∧
  (∃ s',
     (make_follow_chain ;; rig_follow_chain) controlled_state
       = (Return tt, s') ∧
     length (constraints (obj s')) = 2) ∧
  (∃ s',
     (make_follow_chain ;; rig_follow_chain) sample_state
       = (Raise (AttributeError "master"), s') ∧
     AttributeError "master" ≠ ZeroDivisionError).
Proof.
  split; [|split; [|split]].
  - destruct (proj2 (@follow_chain_then_constraints sample_env
                       (chain_state ["ORG-tongue"])) "tongue")
      as (s' & Hrun & Hlen & _).
    + vm_compute. reflexivity.
    + intros org Horg. vm_compute in Horg. by apply elem_of_nil in Horg.
    + apply (sample_has_bones (chain_state ["ORG-tongue"]) ["ORG-tongue"]);
        [|left].
      vm_compute. reflexivity.
    + exists s'. split; [exact Hrun|]. split.
      * rewrite Hlen. vm_compute. reflexivity.
      * assert (s' = exec (make_follow_chain ;; rig_follow_chain)
                       (chain_state ["ORG-tongue"])) as ->
          by (unfold exec; by rewrite Hrun).
        vm_compute. reflexivity.
  - destruct (proj2 (@follow_chain_then_constraints sample_env
                       (chain_state [])) "tongue")
      as (s' & Hrun & Hlen & _).
    + vm_compute. reflexivity.
    + intros org Horg. vm_compute in Horg. by apply elem_of_nil in Horg.
    + apply (sample_has_bones (chain_state []) ["ORG-tongue"]); [|left].
      vm_compute. reflexivity.
    + exists s'. split; [exact Hrun|]. split.
      * rewrite Hlen. vm_compute. reflexivity.
      * assert (s' = exec (make_follow_chain ;; rig_follow_chain)
                       (chain_state [])) as ->
          by (unfold exec; by rewrite Hrun).
        vm_compute. reflexivity.
  - destruct (proj2 (@follow_chain_then_constraints sample_env
                       controlled_state) "tongue")
      as (s' & Hrun & Hlen & _).
    + vm_compute. reflexivity.
    + apply sample_has_bones. vm_compute. reflexivity.
    + apply (sample_has_bones controlled_state ["ORG-tongue"]); [|left].
      vm_compute. reflexivity.
    + exists s'. split; [exact Hrun|]. rewrite Hlen. vm_compute. reflexivity.
  - exists (exec (make_follow_chain ;; rig_follow_chain) sample_state).
    assert ((make_follow_chain ;; rig_follow_chain) sample_state
            = (Raise (AttributeError "master"),
               exec (make_follow_chain ;; rig_follow_chain) sample_state))
      as Hrun by (vm_compute; reflexivity).
    split; [exact Hrun|].
    exact (proj1 (proj1 (@follow_chain_then_constraints sample_env
                           sample_state) _ _ Hrun)).
Defined.

(** With five tweak bones for four parents, the fifth keeps its parent. *)
Lemma parent_tweak_chain_pairs_witness :
  ∃ s',
    parent_tweak_chain long_tweak_state = (Return tt, s') ∧
    bone_parent s' "tweak_tongue.002.001" = Some (Some "root") ∧
    get "ORG-tongue.002" (edit_bones (obj s'))
      = get "ORG-tongue.002" (edit_bones (obj long_tweak_state)).
Proof.
  destruct (parent_tweak_chain_pairs long_tweak_state "tongue"
              [ "tweak_tongue"; "tweak_tongue.001"; "tweak_tongue.002";
                "tweak_tongue.002.001"; "ORG-tongue.002" ]
              ["MCH-tongue.001"; "MCH-tongue.002"])
    as (s' & Hrun & Hpar & Hlate & _).
  - vm_compute. reflexivity.
  - vm_compute. reflexivity.
  - vm_compute. reflexivity.
  - apply (bool_decide_unpack _). vm_compute. reflexivity.
  - intros k t _ Ht. apply (sample_has_bones long_tweak_state
      [ "tweak_tongue"; "tweak_tongue.001"; "tweak_tongue.002";
        "tweak_tongue.002.001"; "ORG-tongue.002" ]).
    + vm_compute. reflexivity.
    + apply list_elem_of_lookup. by exists k.
  - intros k p _ Hp.
    assert (rig_parent_bone (self long_tweak_state) = Some "root") as Hroot
      by (vm_compute; reflexivity).
    rewrite Hroot in Hp.
    apply (sample_has_bones long_tweak_state
             ["tongue"; "MCH-tongue.001"; "MCH-tongue.002"; "root"]).
    + vm_compute. reflexivity.
    + apply (list_elem_of_fmap_inj_2 Some).
      apply (list_elem_of_lookup_2 _ k). exact Hp.
  - exists s'. split; [exact Hrun|]. split.
    + apply (Hpar 3); vm_compute; reflexivity.
    + apply (Hlate 4); [simpl; lia|vm_compute; reflexivity].
Defined.

(** The parent handlers on the generated sample. *)
Lemma parent_handlers_compose_witness :
  ∃ s',
    (parent_control_chain ;; parent_follow_chain ;; parent_tweak_chain)
      generated_state = (Return tt, s') ∧
    bone_parent s' "MCH-tongue.001" = Some (Some "root") ∧
    bone_parent s' "tweak_tongue.001" = Some (Some "MCH-tongue.001").
Proof.
  destruct (parent_handlers_compose generated_state "tongue"
              [ "tweak_tongue"; "tweak_tongue.001"; "tweak_tongue.002";
                "tweak_tongue.002.001" ]
              ["MCH-tongue.001"; "MCH-tongue.002"])
    as (s' & Hrun & Hfollow & Htweak & _).
  - vm_compute. reflexivity.
  - vm_compute. reflexivity.
  - vm_compute. reflexivity.
  - apply (bool_decide_unpack _). vm_compute. reflexivity.
  - intros t Ht. apply (bool_decide_unpack _).
    repeat (apply elem_of_cons in Ht as [->|Ht]; [vm_compute; reflexivity|]).
    by apply elem_of_nil in Ht.
  - apply sample_has_bones. vm_compute. reflexivity.
  - apply (sample_has_bones generated_state ["tongue"]); [|left].
    vm_compute. reflexivity.
  - apply sample_has_bones. vm_compute. reflexivity.
  - intros root Hroot. apply (sample_has_bones generated_state ["root"]).
    + vm_compute. reflexivity.
    + vm_compute in Hroot. injection Hroot as <-. left.
  - exists s'. split; [exact Hrun|]. split.
    + rewrite Hfollow by left. vm_compute. reflexivity.
    + apply (Htweak 1); vm_compute; reflexivity.
Defined.

End TongueMoreFacts.
